(** * unifex::let_value — the chaining combinator of include/unifex/let_value.hpp

    The development has two halves, like the header itself:

    - the completion-signature calculus of [_sender<Predecessor,
      SuccessorFactory>::type] (value_types, error_types, blocking), a
      computation over lists of C++ types;
    - the operation state [_op<...>::type] with its two receivers, a small
      state machine over an overlapping storage whose teardown is selected by
      the function pointer [cleanup_].

    C++ exceptions, [noexcept] boundaries, assertions and calls through a
    null function pointer are effects; they are threaded through a state and
    error monad [M] defined below. *)

From stdpp Require Import base list strings.
From Stdlib Require Import NArith Lia.

Open Scope string_scope.
Open Scope list_scope.

(** ** C++ types, as far as the header looks at them *)

Inductive ty :=
| Named (name : string)
| Const (t : ty)
| LRef (t : ty)
| RRef (t : ty).

#[global] Instance ty_eq_dec : EqDecision ty.
Proof. solve_decision. Defined.

Definition remove_reference (t : ty) : ty :=
  match t with
  | LRef u => u
  | RRef u => u
  | _ => t
  end.

Definition remove_cv (t : ty) : ty :=
  match t with
  | Const u => u
  | _ => t
  end.

(** [std::decay_t] on object and reference types. *)
Definition decay_t (t : ty) : ty := remove_cv (remove_reference t).

Definition exception_ptr : ty := Named "std::exception_ptr".

(** A pack [Values...]. *)
Definition shape := list ty.

(** [decayed_tuple<Values...>] is [std::tuple<std::decay_t<Values>...>]. *)
Definition decayed_tuple_t (Values : shape) : list ty := decay_t <$> Values.

(** ** Collaborators that live outside this header *)

(** Modelled from the spec: the blocking classification [_block::_enum]
    (unifex/blocking.hpp) is an enumeration compared by its underlying
    unsigned value; the header under study only orders its values and names
    the constant [blocking_kind::maybe], which the calculus takes as a
    parameter. *)
Definition _enum := N.

(** Modelled from the spec: what [sender_traits<S>] answers for a sender type
    [S] (unifex/sender_concepts.hpp) — success-value shapes, error types,
    cancellation, blocking classification, scheduler affinity — together with
    [is_nothrow_connectable_v<S, R>] for the receivers this header connects
    [S] to. *)
Module sender_traits.
Record t := mk {
  value_types : list shape;
  error_types : list ty;
  sends_done : bool;
  blocking : _enum;
  is_always_scheduler_affine : bool;
  is_nothrow_connectable : bool;
}.
End sender_traits.

(** A thrown C++ exception, by its message. *)
Definition exn := string.

(** An error value handed to [set_error]: its static type and its content. *)
Record error := mk_error {
  error_type : ty;
  error_what : string;
}.

(** [std::current_exception()] inside a handler that caught [e]. *)
Definition current_exception (e : exn) : error :=
  {| error_type := exception_ptr; error_what := e |}.

(** A value passed to [set_value]; [copy_raises] is what constructing its
    decayed copy throws, if anything. *)
Record value := mk_value {
  datum : N;
  copy_raises : option exn;
}.

(** The live object of type [decayed_tuple<Values...>]. *)
Record decayed_tuple := mk_tuple {
  tuple_type : list ty;
  elements : list value;
}.

(** An operation state of the predecessor or of a successor: opaque. *)
Definition opstate := string.

(** The final receiver: opaque. *)
Definition receiver := string.

(** A sender value: its type's traits, what [unifex::connect] on it gives,
    and what the runtime query [unifex::blocking] answers for it. *)
Record sender := mk_sender {
  traits : sender_traits.t;
  connect : exn + opstate;
  runtime_blocking : _enum;
}.

(** The factory: [invoke_result_t] and [is_nothrow_invocable] are the
    type-level facts [std::invoke_result_t<SuccessorFactory, Ts&...>] and
    [noexcept(std::apply(std::move(func_), tuple))] for decayed argument types
    [Ts]; [invoke] is the call itself. *)
Record SuccessorFactory := mk_factory {
  invoke_result_t : list ty -> sender_traits.t;
  is_nothrow_invocable : list ty -> bool;
  invoke : decayed_tuple -> exn + sender;
}.

(** A completion notification. *)
Inductive signal :=
| value_signal (Values : shape) (values : list value)
| done_signal
| error_signal (e : error).

(** ** The operation state *)

(** The three teardown procedures [cleanup_] can point to; the last two are
    templates over the pack the predecessor completed with. *)
Inductive cleanup_fn :=
| deactivatePredOp
| destructValues (Values : shape)
| deactivateSuccOpAndDestructValues (Values : shape).

#[global] Instance cleanup_fn_eq_dec : EqDecision cleanup_fn.
Proof. solve_decision. Defined.

(** [_op<Predecessor, SuccessorFactory, Receiver>::type]. [predOp_] and
    [succOp_] are the two members of the anonymous union; [None] is a member
    that is not active. [cleanup_ = None] is the null function pointer. *)
Record operation := mk_operation {
  func_ : SuccessorFactory;
  receiver_ : receiver;
  values_ : option decayed_tuple;
  predOp_ : option opstate;
  succOp_ : option (shape * opstate);
  cleanup_ : option cleanup_fn;
}.

Definition with_values (v : option decayed_tuple) (o : operation) : operation :=
  mk_operation (func_ o) (receiver_ o) v (predOp_ o) (succOp_ o) (cleanup_ o).
Definition with_predOp (p : option opstate) (o : operation) : operation :=
  mk_operation (func_ o) (receiver_ o) (values_ o) p (succOp_ o) (cleanup_ o).
Definition with_succOp (s : option (shape * opstate)) (o : operation) : operation :=
  mk_operation (func_ o) (receiver_ o) (values_ o) (predOp_ o) s (cleanup_ o).
Definition with_cleanup (c : option cleanup_fn) (o : operation) : operation :=
  mk_operation (func_ o) (receiver_ o) (values_ o) (predOp_ o) (succOp_ o) c.

(** Code outside the header that the operation calls into. *)
Inductive callee :=
| copy_values (Values : shape) (values : list value)
| destroy_predOp (p : opstate)
| destroy_values (t : decayed_tuple)
| destroy_succOp (s : opstate)
| call_factory (t : decayed_tuple)
| connect_successor (s : sender)
| start_predecessor (p : opstate)
| start_successor (s : opstate)
| receiver_set (r : receiver) (s : signal).

(** The operation state together with the history of its calls to foreign
    code, newest first; each call is recorded with the operation state as it
    was when control left the header. *)
Record world := mk_world {
  op : operation;
  log : list (callee * operation);
}.

(** ** Effects *)

Inductive crash :=
| null_call        (* call through a null [cleanup_] *)
| assert_failed    (* UNIFEX_ASSERT_CLEANUP *)
| std_terminate    (* an exception reached a noexcept boundary *)
| not_active       (* a member was destroyed or used while not alive *)
| storage_in_use.  (* a member was constructed over a live one *)

Inductive outcome (A : Type) :=
| Normal (a : A) (w : world)
| Raised (e : exn) (w : world)
| Crashed (c : crash).
Arguments Normal {A} a w.
Arguments Raised {A} e w.
Arguments Crashed {A} c.

Definition M (A : Type) := world -> outcome A.

Definition ret {A} (a : A) : M A := fun w => Normal a w.

Definition bind {A B} (m : M A) (k : A -> M B) : M B :=
  fun w =>
    match m w with
    | Normal a w' => k a w'
    | Raised e w' => Raised e w'
    | Crashed c => Crashed c
    end.

Notation "x <- m ;; k" := (bind m (fun x => k))
  (at level 100, m at next level, right associativity).
Notation "m ;; k" := (bind m (fun _ => k))
  (at level 100, right associativity).

(** UNIFEX_TRY / UNIFEX_CATCH(...). *)
Definition try_catch {A} (body : M A) (handler : exn -> M A) : M A :=
  fun w =>
    match body w with
    | Raised e w' => handler e w'
    | r => r
    end.

(** A [noexcept] function: an exception that would leave it terminates. *)
Definition noexcept {A} (m : M A) : M A :=
  fun w =>
    match m w with
    | Raised _ _ => Crashed std_terminate
    | r => r
    end.

Definition noexcept_if {A} (b : bool) (m : M A) : M A :=
  if b then noexcept m else m.

Definition abort {A} (c : crash) : M A := fun _ => Crashed c.

Definition get : M operation := fun w => Normal (op w) w.

Definition modify (f : operation -> operation) : M unit :=
  fun w => Normal tt (mk_world (f (op w)) (log w)).

(** A call into foreign code: recorded with the current operation state, and
    returning or throwing as the callee does. *)
Definition call {A} (c : callee) (r : exn + A) : M A :=
  fun w =>
    let w' := mk_world (op w) ((c, op w) :: log w) in
    match r with
    | inl e => Raised e w'
    | inr a => Normal a w'
    end.

(** [UNIFEX_ASSERT_CLEANUP] as the header defines it by default, that is
    without UNIFEX_DISABLE_LET_VALUE_CLEANUP_ASSERTS: [UNIFEX_ASSERT]. *)
Definition UNIFEX_ASSERT_CLEANUP (cond : operation -> bool) : M unit :=
  o <- get ;; if cond o then ret tt else abort assert_failed.

(** ** Storage helpers *)

(** Modelled from the spec: [manual_lifetime_union::construct<T>] on
    [values_] (unifex/manual_lifetime_union.hpp) builds the decayed copies in
    place; the first copy that throws ends the construction and nothing is
    left alive. *)
Fixpoint decay_copy (values : list value) : exn + list value :=
  match values with
  | [] => inr []
  | v :: rest =>
      match copy_raises v with
      | Some e => inl e
      | None =>
          match decay_copy rest with
          | inl e => inl e
          | inr rest' => inr (v :: rest')
          end
      end
  end.

Definition values_construct (Values : shape) (values : list value)
  : M decayed_tuple :=
  o <- get ;;
  match values_ o with
  | Some _ => abort storage_in_use
  | None =>
      copies <- call (copy_values Values values) (decay_copy values) ;;
      let t := mk_tuple (decayed_tuple_t Values) copies in
      modify (with_values (Some t)) ;;
      ret t
  end.

(** Modelled from the spec: [manual_lifetime_union::destruct<T>] runs the
    destructor of the member of type [T], which has to be the live one. *)
Definition values_destruct (Values : shape) : M unit :=
  o <- get ;;
  match values_ o with
  | Some t =>
      if decide (tuple_type t = decayed_tuple_t Values)
      then call (destroy_values t) (inr tt) ;; modify (with_values None)
      else abort not_active
  | None => abort not_active
  end.

(** Modelled from the spec: [deactivate_union_member] destroys the named
    member of the union, which has to be the active one. *)
Definition deactivate_union_member_predOp : M unit :=
  o <- get ;;
  match predOp_ o with
  | Some p => call (destroy_predOp p) (inr tt) ;; modify (with_predOp None)
  | None => abort not_active
  end.

Definition deactivate_union_member_succOp (Values : shape) : M unit :=
  o <- get ;;
  match succOp_ o with
  | Some (Values', s) =>
      if decide (Values' = Values)
      then call (destroy_succOp s) (inr tt) ;; modify (with_succOp None)
      else abort not_active
  | None => abort not_active
  end.

(** Modelled from the spec: [activate_union_member_with<T>] begins the life
    of the union anew in the shared storage — a member that still lived
    there ends its life without its destructor being run — and constructs
    the member [T] from the result of [make]; if [make] throws, no member is
    active. *)
Definition activate_union_member_with_succOp
    (Values : shape) (make : M opstate) : M opstate :=
  modify (fun o => with_succOp None (with_predOp None o)) ;;
  s <- make ;;
  modify (with_succOp (Some (Values, s))) ;;
  ret s.

(** ** [_op<...>::type] *)

(** The bodies of the three static teardown functions, selected by the
    pointer stored in [cleanup_]; calling the null pointer crashes. *)
Definition invoke_cleanup (f : option cleanup_fn) : M unit :=
  match f with
  | None => abort null_call
  | Some deactivatePredOp =>
      noexcept deactivate_union_member_predOp
  | Some (destructValues Values) =>
      noexcept (values_destruct Values)
  | Some (deactivateSuccOpAndDestructValues Values) =>
      noexcept (deactivate_union_member_succOp Values ;;
                values_destruct Values)
  end.

(** [successor_type<Values...>]. *)
Definition successor_type (func : SuccessorFactory) (Values : shape)
  : sender_traits.t :=
  invoke_result_t func (decayed_tuple_t Values).

(** The constructor: [func_] and [receiver_] are stored, [predOp_] is
    activated with the connected predecessor, [cleanup_] takes its default
    member initializer. If connecting throws, no operation state exists. *)
Definition construct (pred : sender) (func : SuccessorFactory) (r : receiver)
  : exn + world :=
  match connect pred with
  | inl e => inl e
  | inr p =>
      inr (mk_world
             (mk_operation func r None (Some p) None (Some deactivatePredOp))
             [])
  end.

(** [~type() { cleanup_(this); }] *)
Definition destructor : M unit :=
  o <- get ;; invoke_cleanup (cleanup_ o).

(** [void start() noexcept { unifex::start(predOp_.get()); }] *)
Definition start : M unit :=
  noexcept
    (o <- get ;;
     match predOp_ o with
     | Some p => call (start_predecessor p) (inr tt)
     | None => abort not_active
     end).

(** [unifex::set_value / set_done / set_error (std::move(op.receiver_), ...)].
    [set_done] and [set_error] of a receiver are noexcept; the final
    receiver's [set_value] is taken to return. *)
Definition notify (s : signal) : M unit :=
  o <- get ;; call (receiver_set (receiver_ o) s) (inr tt).

Module successor_receiver.

Definition expectedCleanup (Values : shape) : option cleanup_fn :=
  Some (deactivateSuccOpAndDestructValues Values).

Definition set_value (Values SuccessorValues : shape) (values : list value)
  : M unit :=
  noexcept
    (UNIFEX_ASSERT_CLEANUP
       (fun o => bool_decide (cleanup_ o = expectedCleanup Values)) ;;
     notify (value_signal SuccessorValues values)).

Definition set_done (Values : shape) : M unit :=
  noexcept
    (UNIFEX_ASSERT_CLEANUP
       (fun o => bool_decide (cleanup_ o = expectedCleanup Values)) ;;
     notify done_signal).

Definition set_error (Values : shape) (e : error) : M unit :=
  noexcept
    (UNIFEX_ASSERT_CLEANUP
       (fun o => bool_decide (cleanup_ o = expectedCleanup Values)) ;;
     notify (error_signal e)).

End successor_receiver.

Module predecessor_receiver.

Definition set_value (Values : shape) (values : list value) : M unit :=
  noexcept
    (op0 <- get ;;
     let func := func_ op0 in
     try_catch
       (UNIFEX_ASSERT_CLEANUP
          (fun o => bool_decide (cleanup_ o = Some deactivatePredOp)) ;;
        valueTuple <- values_construct Values values ;;
        (old <- get ;;
         modify (with_cleanup None) ;;
         invoke_cleanup (cleanup_ old)) ;;
        (if negb (sender_traits.is_nothrow_connectable
                    (successor_type func Values))
            || negb (is_nothrow_invocable func (decayed_tuple_t Values))
         then modify (with_cleanup (Some (destructValues Values)))
         else ret tt) ;;
        succOp <-
          activate_union_member_with_succOp Values
            (s <- noexcept_if
                    (is_nothrow_invocable func (decayed_tuple_t Values))
                    (call (call_factory valueTuple) (invoke func valueTuple)) ;;
             noexcept_if
               (sender_traits.is_nothrow_connectable
                  (successor_type func Values))
               (call (connect_successor s) (connect s))) ;;
        modify
          (with_cleanup (Some (deactivateSuccOpAndDestructValues Values))) ;;
        call (start_successor succOp) (inr tt))
       (fun e =>
          UNIFEX_ASSERT_CLEANUP
            (fun o => negb (bool_decide (cleanup_ o = None))) ;;
          notify (error_signal (current_exception e)))).

Definition set_done : M unit :=
  noexcept
    (UNIFEX_ASSERT_CLEANUP
       (fun o => bool_decide (cleanup_ o = Some deactivatePredOp)) ;;
     notify done_signal).

Definition set_error (e : error) : M unit :=
  noexcept
    (UNIFEX_ASSERT_CLEANUP
       (fun o => bool_decide (cleanup_ o = Some deactivatePredOp)) ;;
     notify (error_signal e)).

End predecessor_receiver.

(** ** The environment of an operation state *)

(** What the caller, the predecessor operation and the successor operation do
    to the operation state. *)
Inductive stimulus :=
| op_start
| pred_completes (s : signal)
| succ_completes (s : signal).

(** The completion handler a stimulus lands in. The successor was connected
    to a [successor_receiver<Operation, Values...>] for the pack whose
    [successor_operation<Values...>] is the active member of the union. *)
Definition handle (st : stimulus) : M unit :=
  match st with
  | op_start => start
  | pred_completes (value_signal Values values) =>
      predecessor_receiver.set_value Values values
  | pred_completes done_signal => predecessor_receiver.set_done
  | pred_completes (error_signal e) => predecessor_receiver.set_error e
  | succ_completes s =>
      o <- get ;;
      match succOp_ o with
      | None => abort not_active
      | Some (Values, _) =>
          match s with
          | value_signal SuccessorValues values =>
              successor_receiver.set_value Values SuccessorValues values
          | done_signal => successor_receiver.set_done Values
          | error_signal e => successor_receiver.set_error Values e
          end
      end
  end.

(** Where the sender/receiver protocol stands, read off the last call the
    operation made: nothing yet, the predecessor was started, the successor
    was started, or the final receiver was notified. *)
Inductive phase := Constructed | PredRunning | SuccRunning | Completed.

Definition phase_of (w : world) : phase :=
  match log w with
  | [] => Constructed
  | (start_predecessor _, _) :: _ => PredRunning
  | (start_successor _, _) :: _ => SuccRunning
  | _ => Completed
  end.

(** The protocol: an operation is started once; a started operation completes
    once; nothing happens after the final receiver was notified. *)
Definition allowed (st : stimulus) (w : world) : bool :=
  match st, phase_of w with
  | op_start, Constructed => true
  | pred_completes _, PredRunning => true
  | succ_completes _, SuccRunning => true
  | _, _ => false
  end.

(** A completion signal a sender of traits [T] may send. *)
Definition conforms (T : sender_traits.t) (s : signal) : Prop :=
  match s with
  | value_signal Values values =>
      Values ∈ sender_traits.value_types T /\ length values = length Values
  | done_signal => sender_traits.sends_done T = true
  | error_signal e => error_type e ∈ sender_traits.error_types T
  end.

(** The protocol, with predecessor and successors keeping to their traits. *)
Definition typed (Predecessor : sender_traits.t) (st : stimulus) (w : world)
  : Prop :=
  allowed st w = true /\
  match st with
  | op_start => True
  | pred_completes s => conforms Predecessor s
  | succ_completes s =>
      match succOp_ (op w) with
      | Some (Values, _) => conforms (successor_type (func_ (op w)) Values) s
      | None => False
      end
  end.

Section Runs.

(** What the environment may do to the operation in a given state. *)
Variable env : stimulus -> world -> Prop.

Inductive reaches (w0 : world) : world -> Prop :=
| reaches_refl : reaches w0 w0
| reaches_step st w w' :
    reaches w0 w -> env st w -> handle st w = Normal tt w' -> reaches w0 w'.

End Runs.

Definition protocol (st : stimulus) (w : world) : Prop := allowed st w = true.

(** The states of a living operation state: constructed by [construct] and
    driven by the protocol. *)
Definition reachable (w : world) : Prop :=
  exists pred func r w0,
    construct pred func r = inr w0 /\ reaches protocol w0 w.

(** Readings of the history. *)
Definition trace (w : world) : list callee := reverse (fst <$> log w).

Definition received (w : world) : list (receiver * signal) :=
  omap (fun c => match c with receiver_set r s => Some (r, s) | _ => None end)
       (trace w).

Definition factory_calls (w : world) : list decayed_tuple :=
  omap (fun c => match c with call_factory t => Some t | _ => None end)
       (trace w).

Definition is_destruction (c : callee) : bool :=
  match c with
  | destroy_predOp _ | destroy_values _ | destroy_succOp _ => true
  | _ => false
  end.

Definition destructions (w : world) : list callee :=
  omap (fun c => if is_destruction c then Some c else None) (trace w).

(** The members of the operation state that are alive, as the calls that
    would destroy them, in the order teardown has to use. *)
Definition live_members (o : operation) : list callee :=
  match predOp_ o with Some p => [destroy_predOp p] | None => [] end ++
  match succOp_ o with Some (_, s) => [destroy_succOp s] | None => [] end ++
  match values_ o with Some t => [destroy_values t] | None => [] end.

(** The cleanup selector names exactly the live members. *)
Definition selector_matches (o : operation) : bool :=
  match cleanup_ o with
  | None => false
  | Some deactivatePredOp =>
      bool_decide (is_Some (predOp_ o) /\ values_ o = None /\ succOp_ o = None)
  | Some (destructValues Values) =>
      bool_decide (predOp_ o = None /\ succOp_ o = None /\
                   tuple_type <$> values_ o = Some (decayed_tuple_t Values))
  | Some (deactivateSuccOpAndDestructValues Values) =>
      bool_decide (predOp_ o = None /\ fst <$> succOp_ o = Some Values /\
                   tuple_type <$> values_ o = Some (decayed_tuple_t Values))
  end.

(** Forward order of the selector: predecessor, null, values, values and
    successor. *)
Definition stage (c : option cleanup_fn) : nat :=
  match c with
  | Some deactivatePredOp => 0
  | None => 1
  | Some (destructValues _) => 2
  | Some (deactivateSuccOpAndDestructValues _) => 3
  end.

(** The selector as it stood at each call to foreign code, oldest first,
    followed by its current value. *)
Definition selector_history (w : world) : list (option cleanup_fn) :=
  reverse ((cleanup_ ∘ snd) <$> log w) ++ [cleanup_ (op w)].

Fixpoint nondecreasing (l : list nat) : bool :=
  match l with
  | a :: (b :: _) as rest => (a <=? b)%nat && nondecreasing rest
  | _ => true
  end.

(** ** The completion-signature calculus *)

(** [type_list<Ts...>]; [List<Ts...>] for a template template parameter
    [List] is the application of [List] to the list. *)
Definition type_list {A} (l : list A) : list A := l.

(** Modelled from the spec: [concat_type_lists_unique_t]
    (unifex/type_list.hpp) is the union of the given type lists, every type
    listed once. *)
Definition concat_type_lists_unique_t {A} `{EqDecision A}
    (lists : list (list A)) : list A :=
  remove_dups (mjoin lists).

(** Modelled from the spec: [sender_value_types_t<S, Variant, Tuple>] is
    [Variant<Tuple<Values...>...>] over the success-value shapes of [S], and
    [sender_error_types_t<S, Variant>] is [Variant<Errors...>] over its error
    types (unifex/sender_concepts.hpp). *)
Definition sender_value_types_t {T V} (S : sender_traits.t)
    (Variant : list T -> V) (Tuple : shape -> T) : V :=
  Variant (Tuple <$> sender_traits.value_types S).

Definition sender_error_types_t {V} (S : sender_traits.t)
    (Variant : list ty -> V) : V :=
  Variant (sender_traits.error_types S).

(** [std::max], [std::min] and [std::max_element] as the standard library
    writes them, with [<] on the underlying values. *)
Definition std_max (a b : _enum) : _enum := if (a <? b)%N then b else a.
Definition std_min (a b : _enum) : _enum := if (b <? a)%N then b else a.

Fixpoint max_element (largest : _enum) (rest : list _enum) : _enum :=
  match rest with
  | [] => largest
  | x :: rest' => max_element (if (largest <? x)%N then x else largest) rest'
  end.

(** Modelled from the spec: a [blocking_kind] (unifex/blocking.hpp) wraps a
    value of the enumeration; its call operator takes no argument and
    answers that value. A call with arguments has no candidate and is
    ill-formed: it has no answer. *)
Definition blocking_kind_call {A} (kind : option _enum) (args : list A)
  : option _enum :=
  match args with
  | [] => kind
  | _ :: _ => None
  end.

(** [any_sends_done<Successors...>] and
    [all_always_scheduler_affine<Senders...>]. *)
Definition any_sends_done (Successors : list sender_traits.t) : bool :=
  existsb sender_traits.sends_done Successors.

Definition all_always_scheduler_affine (Senders : list sender_traits.t) : bool :=
  forallb sender_traits.is_always_scheduler_affine Senders.

(** [max_blocking_kind<First, Rest...>{}()]; the template has no
    instantiation for an empty pack. *)
Definition max_blocking_kind (Senders : list sender_traits.t) : option _enum :=
  match Senders with
  | [] => None
  | First :: Rest =>
      Some (max_element (sender_traits.blocking First)
                        (sender_traits.blocking <$> Rest))
  end.

Module _sender.

(** [_sender<Predecessor, SuccessorFactory>::type], the value. *)
Record type := mk {
  pred_ : sender;
  func_ : SuccessorFactory;
  returnAddress_ : N;
}.

Section traits.

(** [blocking_kind::maybe()]. *)
Variable maybe : _enum.

(** The template arguments. *)
Variable Predecessor : sender_traits.t.
Variable Factory : SuccessorFactory.

Definition successor_types {R} (List : list sender_traits.t -> R) : R :=
  sender_value_types_t Predecessor List (successor_type Factory).

Definition value_types_impl {T V} `{EqDecision T}
    (Variant : list T -> V) (Tuple : shape -> T)
    (Senders : list sender_traits.t) : V :=
  Variant
    (concat_type_lists_unique_t
       ((fun S => sender_value_types_t S type_list Tuple) <$> Senders)).

Definition error_types_impl {V} (Variant : list ty -> V)
    (Senders : list sender_traits.t) : V :=
  Variant
    (concat_type_lists_unique_t
       (((fun S => sender_error_types_t S type_list) <$> Senders)
          ++ [type_list [exception_ptr]])).

Definition value_types {T V} `{EqDecision T}
    (Variant : list T -> V) (Tuple : shape -> T) : V :=
  successor_types (value_types_impl Variant Tuple).

Definition error_types {V} (Variant : list ty -> V) : V :=
  successor_types (error_types_impl Variant).

Definition sends_done : bool :=
  sender_traits.sends_done Predecessor || successor_types any_sends_done.

Definition blocking : option _enum :=
  succ ← successor_types max_blocking_kind;
  Some (std_max (sender_traits.blocking Predecessor) (std_min succ maybe)).

Definition is_always_scheduler_affine : bool :=
  sender_traits.is_always_scheduler_affine Predecessor
  && successor_types all_always_scheduler_affine.

End traits.

(** [tag_invoke(tag_t<unifex::connect>, sender, receiver)]. *)
Definition tag_invoke_connect (s : type) (r : receiver) : exn + world :=
  construct (pred_ s) (func_ s) r.

(** [tag_invoke(tag_t<unifex::blocking>, const type& sender)]. The friend
    is defined in the class, so the unqualified name [blocking] in its body
    is the static member [blocking] declared above, not the customisation
    point [unifex::blocking]: [blocking(sender.pred_)] is a call of that
    [blocking_kind] object with one argument. *)
Definition tag_invoke_blocking (maybe : _enum) (s : type) : option _enum :=
  pred ← blocking_kind_call
           (blocking maybe (traits (pred_ s)) (func_ s)) [pred_ s];
  succ ← successor_types (traits (pred_ s)) (func_ s) max_blocking_kind;
  Some (std_max pred (std_min succ maybe)).

(** [tag_invoke(tag_t<get_return_address>, const type& t)]. *)
Definition tag_invoke_get_return_address (s : type) : N := returnAddress_ s.

End _sender.

(** The errors a [let_value] sender can deliver to a final receiver: those
    some run of an operation state connected from it, with predecessor and
    successors keeping to their traits, notifies the receiver of. *)
Definition can_produce (s : _sender.type) (e : error) : Prop :=
  exists r w0 w o,
    _sender.tag_invoke_connect s r = inr w0 /\
    reaches (typed (traits (_sender.pred_ s))) w0 w /\
    (receiver_set r (error_signal e), o) ∈ log w.

(** The operation state right after construction. *)
Definition initial (func : SuccessorFactory) (r : receiver) (p : opstate)
  : operation :=
  mk_operation func r None (Some p) None (Some deactivatePredOp).

(** The two windows of [set_value] in which the selector is the null marker
    while foreign code runs: the predecessor operation is being destroyed, or
    the factory is called and its sender connected when neither can throw. *)
Definition null_window (c : callee) (o : operation) : bool :=
  bool_decide (cleanup_ o = None) &&
  match c with
  | destroy_predOp _ => true
  | call_factory _ | connect_successor _ =>
      match values_ o with
      | Some t =>
          sender_traits.is_nothrow_connectable
            (invoke_result_t (func_ o) (tuple_type t))
          && is_nothrow_invocable (func_ o) (tuple_type t)
      | None => false
      end
  | _ => false
  end.

Definition snapshot_ok (entry : callee * operation) : bool :=
  selector_matches entry.2 || null_window entry.1 entry.2.

(** The invariant of a living operation state connected from factory [func],
    receiver [r] and predecessor operation [p]. *)
Definition good (func : SuccessorFactory) (r : receiver) (p : opstate)
    (w : world) : Prop :=
  (func_ (op w) = func /\ receiver_ (op w) = r) /\
  selector_matches (op w) = true /\
  Forall (fun entry => snapshot_ok entry = true) (log w) /\
  nondecreasing (stage <$> selector_history w) = true /\
  match phase_of w with
  | Constructed => w = mk_world (initial func r p) []
  | PredRunning =>
      w = mk_world (initial func r p)
                   [(start_predecessor p, initial func r p)]
  | SuccRunning =>
      exists Values s,
        cleanup_ (op w) = Some (deactivateSuccOpAndDestructValues Values) /\
        succOp_ (op w) = Some (Values, s)
  | Completed => True
  end.

(** A notification of the final receiver that carries an error. *)
Definition is_error_notification (c : callee) : bool :=
  match c with
  | receiver_set _ (error_signal _) => true
  | _ => false
  end.

(** [m] is the greatest element of [l]. *)
Definition is_maximum (m : _enum) (l : list _enum) : Prop :=
  m ∈ l /\ forall x, x ∈ l -> (x <= m)%N.

(** The state a stimulus leads to, when its handler returns. *)
Definition after (st : stimulus) (w : world) : world :=
  match handle st w with
  | Normal _ w' => w'
  | _ => w
  end.

(** ** Example senders *)

Open Scope N_scope.

Definition int : ty := Named "int".

(** A successor that completes with one [int] and whose connect may throw. *)
Definition example_successor_traits : sender_traits.t :=
  sender_traits.mk [[int]] [] false 0 true false.

Definition example_successor : sender :=
  mk_sender example_successor_traits (inr "succOp") 0.

(** A predecessor that completes with one [int], with an error of type
    [std::error_code], or with cancellation. *)
Definition example_predecessor_traits : sender_traits.t :=
  sender_traits.mk [[int]] [Named "std::error_code"] true 2 true true.

Definition example_predecessor : sender :=
  mk_sender example_predecessor_traits (inr "predOp") 3.

Definition example_factory : SuccessorFactory :=
  mk_factory (fun _ => example_successor_traits) (fun _ => false)
             (fun _ => inr example_successor).

(** A factory that throws. *)
Definition throwing_factory : SuccessorFactory :=
  mk_factory (fun _ => example_successor_traits) (fun _ => false)
             (fun _ => inl "factory failed").

Definition example_sender : _sender.type :=
  _sender.mk example_predecessor example_factory 0.

Definition example_constructed : world :=
  mk_world (initial example_factory "receiver" "predOp") [].

Definition example_started : world := after op_start example_constructed.

Definition throwing_started : world :=
  after op_start (mk_world (initial throwing_factory "receiver" "predOp") []).

Definition forty_two : value := mk_value 42 None.

(** A value whose copy constructor throws. *)
Definition uncopyable : value := mk_value 42 (Some "bad_alloc").

Definition example_succ_running : world :=
  after (pred_completes (value_signal [RRef int] [forty_two])) example_started.

(** A predecessor without errors or cancellation that completes with no
    values, and a factory declared noexcept whose successor neither fails nor
    throws on connect. *)
Definition nothrow_successor_traits : sender_traits.t :=
  sender_traits.mk [[int]] [] false 0 true true.

Definition nothrow_successor : sender :=
  mk_sender nothrow_successor_traits (inr "succOp") 0.

Definition nothrow_predecessor_traits : sender_traits.t :=
  sender_traits.mk [[]] [] false 0 true true.

Definition nothrow_factory : SuccessorFactory :=
  mk_factory (fun _ => nothrow_successor_traits) (fun _ => true)
             (fun _ => inr nothrow_successor).

Definition nothrow_sender : _sender.type :=
  _sender.mk (mk_sender nothrow_predecessor_traits (inr "predOp") 0)
             nothrow_factory 0.

Close Scope N_scope.

(** ** Further readings of the operation state and of its history *)

(** [get_receiver()] of both internal receivers: [op_.receiver_]. *)
Definition get_receiver (o : operation) : receiver := receiver_ o.

(** [tag_invoke(CPO cpo, const predecessor_receiver& r)] and
    [tag_invoke(CPO cpo, const successor_receiver& r)]: a receiver query is
    answered by the final receiver. *)
Definition tag_invoke_query {A} (cpo : receiver -> A) (o : operation) : A :=
  cpo (get_receiver o).

(** [tag_invoke(tag_t<visit_continuations>, r, f)] of both internal
    receivers: [std::invoke(f, r.get_receiver())]. *)
Definition tag_invoke_visit_continuations {A} (f : receiver -> A)
    (o : operation) : A :=
  f (get_receiver o).

(** The successor operations that were started. *)
Definition started_successors (w : world) : list opstate :=
  omap (fun c => match c with start_successor s => Some s | _ => None end)
       (trace w).

(** The two members of the anonymous union are not alive together, and a
    successor operation is alive only together with the value tuple it was
    made from. *)
Definition storage_ok (o : operation) : bool :=
  match predOp_ o, succOp_ o, values_ o with
  | Some _, Some _, _ => false
  | _, Some _, None => false
  | _, _, _ => true
  end.

(** Notifications of the final receiver [r]: none before completion, one
    after. *)
Definition notified (r : receiver) (w : world) : Prop :=
  match phase_of w with
  | Completed => exists s, received w = [(r, s)]
  | _ => received w = []
  end.

(** What was destroyed so far and what is still alive, against what was
    created: the predecessor operation [p], the successor operations that
    were started, the value tuples the factory was called with. *)
Definition accounted (p : opstate) (w : world) : Prop :=
  destructions w ++ live_members (op w) =
    destroy_predOp p ::
      (destroy_succOp <$> started_successors w) ++
      (destroy_values <$> factory_calls w) /\
  length (started_successors w) <= 1 /\
  length (factory_calls w) <= 1.

Definition lifecycle (func : SuccessorFactory) (r : receiver) (p : opstate)
    (w : world) : Prop :=
  good func r p w /\
  notified r w /\
  Forall (fun entry : callee * operation =>
            storage_ok entry.2 = true /\
            receiver_ entry.2 = r /\ func_ entry.2 = func) (log w) /\
  storage_ok (op w) = true /\
  accounted p w.

(** A step of [set_value] that is declared noexcept throws: the factory
    call, or connecting the sender it returned. *)
Definition noexcept_violation (func : SuccessorFactory) (Values : shape)
    (values : list value) : Prop :=
  let t := mk_tuple (decayed_tuple_t Values) values in
  (is_nothrow_invocable func (decayed_tuple_t Values) = true /\
   exists e, invoke func t = inl e) \/
  (exists s e,
     invoke func t = inr s /\
     sender_traits.is_nothrow_connectable (successor_type func Values) = true /\
     connect s = inl e).

(** A completion signal that the traits computed for
    [let_value(Predecessor, Factory)] announce; for errors, also those the
    predecessor announces for itself. *)
Definition announced (Predecessor : sender_traits.t)
    (Factory : SuccessorFactory) (s : signal) : Prop :=
  match s with
  | value_signal Values _ =>
      Values ∈ _sender.value_types Predecessor Factory type_list id
  | done_signal => _sender.sends_done Predecessor Factory = true
  | error_signal e =>
      error_type e ∈ _sender.error_types Predecessor Factory type_list \/
      error_type e ∈ sender_traits.error_types Predecessor
  end.

(** The example operation after its successor completed with 43. *)
Definition example_completed : world :=
  after (succ_completes (value_signal [int] [mk_value 43%N None]))
        example_succ_running.

(** The same run with the predecessor completing with the pack it
    declares. *)
Definition declared_succ_running : world :=
  after (pred_completes (value_signal [int] [forty_two])) example_started.

Definition declared_completed : world :=
  after (succ_completes (value_signal [int] [mk_value 43%N None]))
        declared_succ_running.

#[global] Instance value_eq_dec : EqDecision value.
Proof. solve_decision. Defined.

#[global] Instance decayed_tuple_eq_dec : EqDecision decayed_tuple.
Proof. solve_decision. Defined.




(** ** The assertion macro in both configurations *)

(** [UNIFEX_ASSERT_CLEANUP] as lines 40-44 define it: [((void)0)] when
    UNIFEX_DISABLE_LET_VALUE_CLEANUP_ASSERTS is defined, [UNIFEX_ASSERT]
    otherwise. *)
Definition UNIFEX_ASSERT_CLEANUP_when (disabled : bool)
    (cond : operation -> bool) : M unit :=
  if disabled then ret tt else UNIFEX_ASSERT_CLEANUP cond.

(** [predecessor_receiver::set_done] and [set_error] in either
    configuration. *)
Definition set_done_when (disabled : bool) : M unit :=
  noexcept
    (UNIFEX_ASSERT_CLEANUP_when disabled
       (fun o => bool_decide (cleanup_ o = Some deactivatePredOp)) ;;
     notify done_signal).

Definition set_error_when (disabled : bool) (e : error) : M unit :=
  noexcept
    (UNIFEX_ASSERT_CLEANUP_when disabled
       (fun o => bool_decide (cleanup_ o = Some deactivatePredOp)) ;;
     notify (error_signal e)).

(** ** An example for the blocking classification *)

(** A predecessor with two success-value shapes, static classification 1
    and runtime classification 3; the factory returns a sender of
    classification 3 for the empty shape and one of classification 0
    otherwise. *)
Definition blocking_example_factory : SuccessorFactory :=
  mk_factory
    (fun Ts =>
       match Ts with
       | [] => sender_traits.mk [[]] [] false 3%N true true
       | _ :: _ => sender_traits.mk [[]] [] false 0%N true true
       end)
    (fun _ => true)
    (fun _ => inr nothrow_successor).

Definition blocking_example_sender : _sender.type :=
  _sender.mk
    (mk_sender (sender_traits.mk [[]; [LRef int]] [] false 1%N true true)
               (inr "predOp") 3%N)
    blocking_example_factory 0%N.

(** ** Symbolic execution of the handlers *)

Ltac unfold_code :=
  unfold after, handle,
    predecessor_receiver.set_value, predecessor_receiver.set_done,
    predecessor_receiver.set_error, successor_receiver.set_value,
    successor_receiver.set_done, successor_receiver.set_error,
    successor_receiver.expectedCleanup, destructor, start, notify,
    invoke_cleanup, activate_union_member_with_succOp,
    deactivate_union_member_predOp, deactivate_union_member_succOp,
    values_destruct, values_construct, UNIFEX_ASSERT_CLEANUP,
    noexcept_if, noexcept, try_catch, call, modify, abort, bind, get, ret.

Ltac exec :=
  unfold_code;
  repeat first
    [ progress cbn
    | rewrite bool_decide_eq_true_2 by done
    | rewrite bool_decide_eq_false_2 by done
    | rewrite decide_True by done
    | rewrite decide_False by done ].

Ltac finish :=
  repeat first [ split; [done|] | progress exec ]; done.

Ltac check_good :=
  split; [|split; [|split; [|split]]];
  [ done
  | unfold selector_matches; cbn; try (apply bool_decide_eq_true_2; by eauto)
  | repeat constructor; unfold snapshot_ok, selector_matches, null_window; cbn;
    repeat first [ rewrite bool_decide_eq_true_2 by (by eauto) | progress cbn ]
  | try reflexivity
  | try (cbn; eauto) ]; try done.

(** ** Basic facts *)

Lemma decay_copy_inr values copies :
  decay_copy values = inr copies -> copies = values.
Proof.
  revert copies. induction values as [|v rest IH]; intros copies; cbn.
  - congruence.
  - destruct (copy_raises v); [discriminate|].
    destruct (decay_copy rest) as [e|rest'] eqn:E; [discriminate|].
    intros [= <-]. f_equal. by apply IH.
Qed.

Lemma nondecreasing_repeat_last (l : list nat) (a : nat) :
  nondecreasing (l ++ [a]) = true -> nondecreasing (l ++ [a; a]) = true.
Proof.
  induction l as [|x [|y l'] IH]; cbn.
  - intros _. by rewrite Nat.leb_refl.
  - intros H. rewrite andb_true_r in H. by rewrite H, Nat.leb_refl.
  - intros [H1 H2]%andb_true_iff. rewrite H1. cbn. by apply IH.
Qed.

Lemma trace_cons o o' c l :
  trace (mk_world o ((c, o') :: l)) = trace (mk_world o l) ++ [c].
Proof. unfold trace. cbn [log]. by rewrite fmap_cons, reverse_cons. Qed.

Lemma allowed_phase st w :
  allowed st w = true ->
  match st with
  | op_start => phase_of w = Constructed
  | pred_completes _ => phase_of w = PredRunning
  | succ_completes _ => phase_of w = SuccRunning
  end.
Proof. unfold allowed. by destruct st, (phase_of w). Qed.

(** ** The invariant holds in every state of a living operation *)

Lemma good_construct pred func r w0 :
  construct pred func r = inr w0 ->
  exists p, connect pred = inr p /\ w0 = mk_world (initial func r p) [] /\
            good func r p w0.
Proof.
  unfold construct. destruct (connect pred) as [e|p]; [discriminate|].
  intros [= <-]. exists p. split; [done|]. split; [done|]. check_good.
Qed.

Lemma good_step func r p st w w' :
  good func r p w -> allowed st w = true -> handle st w = Normal tt w' ->
  good func r p w'.
Proof.
  intros ([Hf Hr] & Hsel & Hlog & Hord & Hph) Hal Hrun.
  apply allowed_phase in Hal.
  destruct st as [|s|s]; rewrite Hal in Hph.
  - subst w. revert Hrun. unfold initial. exec. intros [= <-]. check_good.
  - subst w. revert Hrun. unfold initial. destruct s as [Values values| |e].
    + exec. destruct (decay_copy values) as [e|copies] eqn:Ecopy.
      * exec. intros [= <-]. check_good.
      * apply decay_copy_inr in Ecopy as ->. exec.
        destruct (sender_traits.is_nothrow_connectable _) eqn:Hc,
                 (is_nothrow_invocable _ _) eqn:Hi; exec;
        (destruct (invoke func _) as [e|s] eqn:Hinv; exec;
         [| destruct (connect s) as [e|o] eqn:Hcon; exec]);
        try discriminate; intros [= <-]; check_good.
        all: unfold successor_type in Hc; by rewrite Hc, ?Hi.
    + exec. intros [= <-]. check_good.
    + exec. intros [= <-]. check_good.
  - destruct Hph as (Values & o & Hc & Hs). revert Hrun.
    destruct w as [o0 l]. cbn [op log] in *.
    assert (Hstep : forall sg,
      w' = mk_world o0 ((receiver_set (receiver_ o0) sg, o0) :: l) ->
      good func r p w').
    { intros sg ->. split; [|split; [|split; [|split]]].
      - done.
      - done.
      - constructor; [|done]. unfold snapshot_ok. cbn. by rewrite Hsel.
      - unfold selector_history in *. cbn [op log] in *.
        rewrite fmap_cons, reverse_cons, <- app_assoc, fmap_app.
        rewrite fmap_app in Hord.
        by apply nondecreasing_repeat_last.
      - done. }
    destruct s as [SV values| |e]; exec; rewrite Hs; exec; rewrite ?Hc; exec;
      intros [= <-]; by eapply Hstep.
Qed.

Lemma good_reaches func r p w0 w :
  good func r p w0 -> reaches protocol w0 w -> good func r p w.
Proof.
  intros H0 Hreach. induction Hreach as [|st w w' _ IH Hal Hrun]; [done|].
  by eapply good_step.
Qed.

Lemma reachable_good w :
  reachable w -> exists func r p, good func r p w.
Proof.
  intros (pred & func & r & w0 & Hc & Hreach).
  apply good_construct in Hc as (p & _ & _ & Hgood).
  exists func, r, p. by eapply good_reaches.
Qed.

Lemma pred_running_shape w :
  reachable w -> phase_of w = PredRunning ->
  exists func r p,
    w = mk_world (initial func r p) [(start_predecessor p, initial func r p)].
Proof.
  intros (func & r & p & _ & _ & _ & _ & Hph)%reachable_good Hphase.
  rewrite Hphase in Hph. by exists func, r, p.
Qed.

Lemma reaches_typed_protocol Predecessor w0 w :
  reaches (typed Predecessor) w0 w -> reaches protocol w0 w.
Proof.
  induction 1 as [|st w w' _ IH [Hal _] Hrun]; [constructor|].
  by eapply reaches_step.
Qed.

(** ** Teardown *)

Lemma destructor_correct o l :
  selector_matches o = true ->
  exists w',
    destructor (mk_world o l) = Normal tt w' /\
    trace w' = trace (mk_world o l) ++ live_members o /\
    live_members (op w') = [].
Proof.
  unfold selector_matches. destruct o as [f r v p s c].
  destruct c as [[|Values|Values]|]; cbn; [| | |done].
  - intros ([p' ->] & -> & ->)%bool_decide_eq_true. exec.
    eexists. split; [done|]. by rewrite trace_cons.
  - intros (-> & -> & Hv)%bool_decide_eq_true.
    destruct v as [t|]; [|done]. injection Hv as Ht. exec.
    eexists. split; [done|]. by rewrite trace_cons.
  - intros (-> & Hs & Hv)%bool_decide_eq_true.
    destruct v as [t|]; [|done]. injection Hv as Ht.
    destruct s as [[Values' s]|]; [|done]. injection Hs as ->. exec.
    eexists. split; [done|]. rewrite !trace_cons, <- app_assoc.
    split; [|done]. f_equal.
Qed.

(** ** The example states are states of a living operation *)

Lemma example_constructed_reachable : reachable example_constructed.
Proof.
  exists example_predecessor, example_factory, "receiver", example_constructed.
  split; [done|]. constructor.
Qed.

Lemma example_started_reachable : reachable example_started.
Proof.
  destruct example_constructed_reachable as (pred & func & r & w0 & Hc & Hr).
  exists pred, func, r, w0. split; [done|].
  by eapply (reaches_step _ _ op_start).
Qed.

Lemma example_succ_running_reachable : reachable example_succ_running.
Proof.
  destruct example_started_reachable as (pred & func & r & w0 & Hc & Hr).
  exists pred, func, r, w0. split; [done|].
  by eapply (reaches_step _ _
               (pred_completes (value_signal [RRef int] [forty_two]))).
Qed.

Lemma throwing_started_reachable : reachable throwing_started.
Proof.
  exists example_predecessor, throwing_factory, "receiver",
    (mk_world (initial throwing_factory "receiver" "predOp") []).
  split; [done|]. eapply (reaches_step _ _ op_start); [constructor|done|done].
Qed.

(** ** The operation state: claims *)

(** C9. An operation state that is constructed and destroyed without being
    started: the destructor destroys the predecessor operation and nothing
    else; the value tuple and the successor storage were never alive and are
    left as they are. *)
Theorem destroy_before_start pred func r w0 :
  construct pred func r = inr w0 ->
  exists p w',
    connect pred = inr p /\
    destructor w0 = Normal tt w' /\
    trace w' = [destroy_predOp p] /\
    values_ (op w0) = None /\ succOp_ (op w0) = None /\
    op w' = with_predOp None (op w0).
Proof.
  intros (p & Hp & -> & _)%good_construct. exists p. eexists.
  split; [done|]. unfold initial. exec. done.
Qed.

Lemma destroy_before_start_witness :
  construct example_predecessor example_factory "receiver"
    = inr example_constructed /\
  exists p w',
    connect example_predecessor = inr p /\
    destructor example_constructed = Normal tt w' /\
    trace w' = [destroy_predOp p] /\
    values_ (op example_constructed) = None /\
    succOp_ (op example_constructed) = None /\
    op w' = with_predOp None (op example_constructed).
Proof.
  split; [reflexivity|].
  apply (destroy_before_start example_predecessor example_factory "receiver").
  reflexivity.
Defined.

(** C2. When the predecessor completes with cancellation or with an error,
    that very signal is what the final receiver gets, the operation state is
    left as it was (so the successor storage is not touched), and in the
    whole life of the operation, teardown included, the factory is never
    called: the only calls are starting the predecessor, notifying the
    receiver and destroying the predecessor operation. *)
Theorem predecessor_done_or_error_is_forwarded (w : world) (s : signal) :
  reachable w -> phase_of w = PredRunning ->
  (s = done_signal \/ exists e, s = error_signal e) ->
  exists p w' w'',
    predOp_ (op w) = Some p /\
    handle (pred_completes s) w = Normal tt w' /\
    op w' = op w /\
    received w' = [(receiver_ (op w), s)] /\
    factory_calls w' = [] /\
    succOp_ (op w') = None /\ values_ (op w') = None /\
    destructor w' = Normal tt w'' /\
    trace w'' = [start_predecessor p; receiver_set (receiver_ (op w)) s;
                 destroy_predOp p].
Proof.
  intros Hreach Hphase Hs.
  destruct (pred_running_shape w Hreach Hphase) as (func & r & p & ->).
  exists p. unfold initial.
  destruct Hs as [->|[e ->]]; exec; do 2 eexists; repeat (split; [done|]); done.
Qed.

Lemma predecessor_done_or_error_is_forwarded_witness :
  let s := error_signal (mk_error (Named "std::error_code") "timed out") in
  reachable example_started /\ phase_of example_started = PredRunning /\
  (s = done_signal \/ exists e, s = error_signal e) /\
  exists p w' w'',
    predOp_ (op example_started) = Some p /\
    handle (pred_completes s) example_started = Normal tt w' /\
    op w' = op example_started /\
    received w' = [(receiver_ (op example_started), s)] /\
    factory_calls w' = [] /\
    succOp_ (op w') = None /\ values_ (op w') = None /\
    destructor w' = Normal tt w'' /\
    trace w'' = [start_predecessor p;
                 receiver_set (receiver_ (op example_started)) s;
                 destroy_predOp p].
Proof.
  intros s.
  assert (H1 : reachable example_started) by apply example_started_reachable.
  assert (H2 : phase_of example_started = PredRunning) by reflexivity.
  assert (H3 : s = done_signal \/ exists e, s = error_signal e)
    by (right; eexists; reflexivity).
  split; [exact H1|]. split; [exact H2|]. split; [exact H3|].
  exact (predecessor_done_or_error_is_forwarded example_started s H1 H2 H3).
Defined.

(** C4. When constructing the decayed copy of the predecessor's values
    throws [e], the final receiver gets exactly one notification, the error
    [std::current_exception()] holding [e]; the selector still is
    [deactivatePredOp]; and the calls of the whole life of the operation are:
    start the predecessor, attempt the copy, notify the receiver, and at
    teardown destroy the predecessor operation, once. No factory call, no
    successor connected, started or destroyed. *)
Theorem value_copy_failure (w : world) Values values e :
  reachable w -> phase_of w = PredRunning ->
  decay_copy values = inl e ->
  exists p w1 w2,
    predOp_ (op w) = Some p /\
    handle (pred_completes (value_signal Values values)) w = Normal tt w1 /\
    received w1 = [(receiver_ (op w), error_signal (current_exception e))] /\
    cleanup_ (op w1) = Some deactivatePredOp /\
    destructor w1 = Normal tt w2 /\
    trace w2 = [start_predecessor p; copy_values Values values;
                receiver_set (receiver_ (op w))
                             (error_signal (current_exception e));
                destroy_predOp p] /\
    live_members (op w2) = [].
Proof.
  intros Hreach Hphase Hcopy.
  destruct (pred_running_shape w Hreach Hphase) as (func & r & p & ->).
  exists p. unfold initial. exec. rewrite Hcopy. exec.
  do 2 eexists; repeat (split; [done|]); done.
Qed.

Lemma value_copy_failure_witness :
  reachable example_started /\ phase_of example_started = PredRunning /\
  decay_copy [uncopyable] = inl "bad_alloc" /\
  exists p w1 w2,
    predOp_ (op example_started) = Some p /\
    handle (pred_completes (value_signal [int] [uncopyable])) example_started
      = Normal tt w1 /\
    received w1 = [(receiver_ (op example_started),
                    error_signal (current_exception "bad_alloc"))] /\
    cleanup_ (op w1) = Some deactivatePredOp /\
    destructor w1 = Normal tt w2 /\
    trace w2 = [start_predecessor p; copy_values [int] [uncopyable];
                receiver_set (receiver_ (op example_started))
                             (error_signal (current_exception "bad_alloc"));
                destroy_predOp p] /\
    live_members (op w2) = [].
Proof.
  assert (H1 : reachable example_started) by apply example_started_reachable.
  assert (H2 : phase_of example_started = PredRunning) by reflexivity.
  assert (H3 : decay_copy [uncopyable] = inl "bad_alloc") by reflexivity.
  split; [exact H1|]. split; [exact H2|]. split; [exact H3|].
  exact (value_copy_failure example_started [int] [uncopyable] "bad_alloc"
           H1 H2 H3).
Defined.

(** C5. When the values were copied and then the factory, or connecting the
    sender it returned, throws [e] into [set_value] (so the throwing step is
    not declared noexcept), the final receiver gets exactly one notification,
    the error holding [e]; the selector is [destructValues<Values...>]; only
    the value tuple is alive; teardown destroys the value tuple and nothing
    else, so that over the whole life the predecessor operation is destroyed
    once (inside [set_value]) and the value tuple once. *)
Theorem successor_construction_failure (w : world) Values values e :
  reachable w -> phase_of w = PredRunning ->
  decay_copy values = inr values ->
  (let func := func_ (op w) in
   let t := mk_tuple (decayed_tuple_t Values) values in
   (is_nothrow_invocable func (decayed_tuple_t Values) = false /\
    invoke func t = inl e) \/
   (exists s, invoke func t = inr s /\
      sender_traits.is_nothrow_connectable (successor_type func Values) = false /\
      connect s = inl e)) ->
  exists p w1 w2,
    let t := mk_tuple (decayed_tuple_t Values) values in
    predOp_ (op w) = Some p /\
    handle (pred_completes (value_signal Values values)) w = Normal tt w1 /\
    received w1 = [(receiver_ (op w), error_signal (current_exception e))] /\
    cleanup_ (op w1) = Some (destructValues Values) /\
    live_members (op w1) = [destroy_values t] /\
    destructor w1 = Normal tt w2 /\
    trace w2 = trace w1 ++ [destroy_values t] /\
    destructions w2 = [destroy_predOp p; destroy_values t] /\
    live_members (op w2) = [].
Proof.
  intros Hreach Hphase Hcopy Hthrow.
  destruct (pred_running_shape w Hreach Hphase) as (func & r & p & ->).
  exists p. revert Hthrow. unfold initial. exec. rewrite Hcopy. exec.
  intros [[Hi Hinv]|(s & Hinv & Hc & Hcon)].
  - rewrite Hi, orb_true_r, Hinv. exec. do 2 eexists. finish.
  - rewrite Hc, Hinv. exec.
    destruct (is_nothrow_invocable _ _); exec; rewrite Hcon; exec;
      do 2 eexists; finish.
Qed.

Lemma successor_construction_failure_witness :
  reachable throwing_started /\ phase_of throwing_started = PredRunning /\
  decay_copy [forty_two] = inr [forty_two] /\
  (let func := func_ (op throwing_started) in
   let t := mk_tuple (decayed_tuple_t [int]) [forty_two] in
   (is_nothrow_invocable func (decayed_tuple_t [int]) = false /\
    invoke func t = inl "factory failed") \/
   (exists s, invoke func t = inr s /\
      sender_traits.is_nothrow_connectable (successor_type func [int]) = false /\
      connect s = inl "factory failed")) /\
  exists p w1 w2,
    let t := mk_tuple (decayed_tuple_t [int]) [forty_two] in
    predOp_ (op throwing_started) = Some p /\
    handle (pred_completes (value_signal [int] [forty_two])) throwing_started
      = Normal tt w1 /\
    received w1 = [(receiver_ (op throwing_started),
                    error_signal (current_exception "factory failed"))] /\
    cleanup_ (op w1) = Some (destructValues [int]) /\
    live_members (op w1) = [destroy_values t] /\
    destructor w1 = Normal tt w2 /\
    trace w2 = trace w1 ++ [destroy_values t] /\
    destructions w2 = [destroy_predOp p; destroy_values t] /\
    live_members (op w2) = [].
Proof.
  assert (H1 : reachable throwing_started) by apply throwing_started_reachable.
  assert (H2 : phase_of throwing_started = PredRunning) by reflexivity.
  assert (H3 : decay_copy [forty_two] = inr [forty_two]) by reflexivity.
  assert (H4 :
    let func := func_ (op throwing_started) in
    let t := mk_tuple (decayed_tuple_t [int]) [forty_two] in
    (is_nothrow_invocable func (decayed_tuple_t [int]) = false /\
     invoke func t = inl "factory failed") \/
    (exists s, invoke func t = inr s /\
       sender_traits.is_nothrow_connectable (successor_type func [int]) = false /\
       connect s = inl "factory failed"))
    by (left; split; reflexivity).
  split; [exact H1|]. split; [exact H2|]. split; [exact H3|]. split; [exact H4|].
  exact (successor_construction_failure throwing_started [int] [forty_two]
           "factory failed" H1 H2 H3 H4).
Defined.

(** C1, as the code has it. When the predecessor completes with values [V]
    and their decayed copies are constructed without throwing, every
    [set_value] that returns has called the factory exactly once, with the
    tuple of copies. When moreover the factory returns a sender and
    connecting it gives an operation, that operation becomes the active
    successor, it is started, and whatever signal it completes with is the
    one notification the final receiver gets. *)
Theorem success_path (w : world) Values values copies :
  reachable w -> phase_of w = PredRunning ->
  decay_copy values = inr copies ->
  let t := mk_tuple (decayed_tuple_t Values) copies in
  copies = values /\
  (forall w1,
     handle (pred_completes (value_signal Values values)) w = Normal tt w1 ->
     factory_calls w1 = [t]) /\
  (forall s o,
     invoke (func_ (op w)) t = inr s -> connect s = inr o ->
     exists w1,
       handle (pred_completes (value_signal Values values)) w = Normal tt w1 /\
       factory_calls w1 = [t] /\
       received w1 = [] /\
       succOp_ (op w1) = Some (Values, o) /\
       log w1 !! 0 = Some (start_successor o, op w1) /\
       forall sg, exists w2,
         handle (succ_completes sg) w1 = Normal tt w2 /\
         received w2 = [(receiver_ (op w), sg)] /\
         factory_calls w2 = [t]).
Proof.
  intros Hreach Hphase Hcopy t.
  destruct (pred_running_shape w Hreach Hphase) as (func & r & p & ->).
  pose proof (decay_copy_inr _ _ Hcopy) as ->. subst t.
  split; [done|]. unfold initial. split.
  - intros w1. exec. rewrite Hcopy. exec.
    destruct (sender_traits.is_nothrow_connectable _),
             (is_nothrow_invocable _ _); exec;
      (destruct (invoke func _) as [e|s]; exec;
       [| destruct (connect s) as [e|o]; exec]);
      try discriminate; by intros [= <-].
  - intros s o Hinv Hcon. cbn in Hinv. exec. rewrite Hcopy. exec.
    destruct (sender_traits.is_nothrow_connectable _),
             (is_nothrow_invocable _ _); exec; rewrite Hinv; exec;
      rewrite Hcon; exec; eexists; repeat (split; [done|]);
      intros [SV vs| |e]; exec; eexists; done.
Qed.

Lemma success_path_witness :
  reachable example_started /\ phase_of example_started = PredRunning /\
  decay_copy [forty_two] = inr [forty_two] /\
  let t := mk_tuple (decayed_tuple_t [RRef int]) [forty_two] in
  [forty_two] = [forty_two] /\
  (forall w1,
     handle (pred_completes (value_signal [RRef int] [forty_two]))
            example_started = Normal tt w1 ->
     factory_calls w1 = [t]) /\
  (forall s o,
     invoke (func_ (op example_started)) t = inr s -> connect s = inr o ->
     exists w1,
       handle (pred_completes (value_signal [RRef int] [forty_two]))
              example_started = Normal tt w1 /\
       factory_calls w1 = [t] /\
       received w1 = [] /\
       succOp_ (op w1) = Some ([RRef int], o) /\
       log w1 !! 0 = Some (start_successor o, op w1) /\
       forall sg, exists w2,
         handle (succ_completes sg) w1 = Normal tt w2 /\
         received w2 = [(receiver_ (op example_started), sg)] /\
         factory_calls w2 = [t]).
Proof.
  assert (H1 : reachable example_started) by apply example_started_reachable.
  assert (H2 : phase_of example_started = PredRunning) by reflexivity.
  assert (H3 : decay_copy [forty_two] = inr [forty_two]) by reflexivity.
  split; [exact H1|]. split; [exact H2|]. split; [exact H3|].
  exact (success_path example_started [RRef int] [forty_two] [forty_two]
           H1 H2 H3).
Defined.

(** C1 as written fails: the predecessor completes with a value whose copy
    constructor throws; [set_value] returns, the factory was never called,
    and the final receiver got the exception as an error. *)
Lemma copy_failure_skips_factory :
  reachable example_started /\ phase_of example_started = PredRunning /\
  exists w1,
    handle (pred_completes (value_signal [int] [uncopyable])) example_started
      = Normal tt w1 /\
    factory_calls w1 = [] /\
    received w1 = [("receiver", error_signal (current_exception "bad_alloc"))].
Proof.
  split; [apply example_started_reachable|]. split; [reflexivity|].
  eexists. split; [reflexivity|]. split; reflexivity.
Qed.

(** C3, as the code has it. In every state of a living operation: the
    selector names exactly the live members; so it did at every call into
    foreign code, except in the two null windows of [set_value] (see
    [null_window]); along the history the selector only moved forward
    (predecessor, null, values, values and successor); and from the current
    state, as from any recorded state in which the selector was not null, the
    destructor returns having destroyed exactly the live members, successor
    before values, and leaves nothing alive. *)
Theorem cleanup_selector_invariant (w : world) :
  reachable w ->
  selector_matches (op w) = true /\
  (forall c o, (c, o) ∈ log w ->
     selector_matches o = true \/ null_window c o = true) /\
  nondecreasing (stage <$> selector_history w) = true /\
  (forall o l,
     o = op w \/ (exists c, (c, o) ∈ log w /\ cleanup_ o <> None) ->
     exists w',
       destructor (mk_world o l) = Normal tt w' /\
       trace w' = trace (mk_world o l) ++ live_members o /\
       live_members (op w') = []).
Proof.
  intros (func & r & p & _ & Hsel & Hlog & Hord & _)%reachable_good.
  rewrite Forall_forall in Hlog.
  assert (Hsnap : forall c o, (c, o) ∈ log w ->
            selector_matches o = true \/ null_window c o = true).
  { intros c o Hin. apply Hlog in Hin. unfold snapshot_ok in Hin. cbn in Hin.
    by apply orb_true_iff. }
  repeat (split; [done|]).
  intros o l [->|(c & Hin & Hnz)]; apply destructor_correct; [done|].
  destruct (Hsnap c o Hin) as [H|H]; [done|].
  unfold null_window in H. apply andb_true_iff in H as [H _].
  by apply bool_decide_eq_true in H.
Qed.

Lemma cleanup_selector_invariant_witness :
  reachable example_succ_running /\
  selector_matches (op example_succ_running) = true /\
  (forall c o, (c, o) ∈ log example_succ_running ->
     selector_matches o = true \/ null_window c o = true) /\
  nondecreasing (stage <$> selector_history example_succ_running) = true /\
  (forall o l,
     o = op example_succ_running \/
     (exists c, (c, o) ∈ log example_succ_running /\ cleanup_ o <> None) ->
     exists w',
       destructor (mk_world o l) = Normal tt w' /\
       trace w' = trace (mk_world o l) ++ live_members o /\
       live_members (op w') = []).
Proof.
  assert (H1 : reachable example_succ_running)
    by apply example_succ_running_reachable.
  split; [exact H1|].
  exact (cleanup_selector_invariant example_succ_running H1).
Defined.

(** C3 as written fails: while [set_value] destroys the predecessor
    operation, control is in foreign code (the destructor of the predecessor
    operation), the selector is null, and both the predecessor operation and
    the value tuple are alive. *)
Lemma selector_null_while_predecessor_is_destroyed :
  reachable example_succ_running /\
  exists o,
    (destroy_predOp "predOp", o) ∈ log example_succ_running /\
    cleanup_ o = None /\
    live_members o =
      [destroy_predOp "predOp"; destroy_values (mk_tuple [int] [forty_two])] /\
    selector_matches o = false.
Proof.
  split; [apply example_succ_running_reachable|].
  exists (with_cleanup None
            (with_values (Some (mk_tuple [int] [forty_two]))
                         (initial example_factory "receiver" "predOp"))).
  split; [|by repeat split].
  apply list_elem_of_In. vm_compute. tauto.
Qed.

(** ** The completion-signature calculus: basic facts *)

Lemma elem_of_concat_type_lists_unique {A} `{EqDecision A}
    (lists : list (list A)) (x : A) :
  x ∈ concat_type_lists_unique_t lists <-> exists l, x ∈ l /\ l ∈ lists.
Proof.
  unfold concat_type_lists_unique_t.
  by rewrite elem_of_remove_dups, list_elem_of_join.
Qed.

Lemma std_max_spec (a b : _enum) : std_max a b = N.max a b.
Proof. unfold std_max. destruct (N.ltb_spec a b); lia. Qed.

Lemma std_min_spec (a b : _enum) : std_min a b = N.min a b.
Proof. unfold std_min. destruct (N.ltb_spec b a); lia. Qed.

Lemma max_element_spec (largest : _enum) (rest : list _enum) :
  is_maximum (max_element largest rest) (largest :: rest).
Proof.
  revert largest. induction rest as [|x rest IH]; intros largest; cbn.
  - split; [apply list_elem_of_here|].
    intros y ->%list_elem_of_singleton. lia.
  - destruct (IH (if (largest <? x)%N then x else largest)) as [Hin Hle].
    split.
    + apply elem_of_cons in Hin as [->|Hin].
      * destruct (largest <? x)%N; rewrite !elem_of_cons; auto.
      * rewrite !elem_of_cons; auto.
    + intros y Hy.
      assert (Hmid : (largest <= max_element
                        (if (largest <? x)%N then x else largest) rest)%N /\
                     (x <= max_element
                        (if (largest <? x)%N then x else largest) rest)%N).
      { pose proof (Hle (if (largest <? x)%N then x else largest)
                        (list_elem_of_here _ _)) as H0.
        destruct (N.ltb_spec largest x); lia. }
      apply elem_of_cons in Hy as [->|Hy]; [lia|].
      apply elem_of_cons in Hy as [->|Hy]; [lia|].
      apply Hle. rewrite elem_of_cons; auto.
Qed.

Lemma is_maximum_unique (m m' : _enum) (l : list _enum) :
  is_maximum m l -> is_maximum m' l -> m = m'.
Proof.
  intros [Hin Hle] [Hin' Hle'].
  apply N.le_antisymm; [by apply Hle'|by apply Hle].
Qed.

Lemma max_blocking_kind_spec (Senders : list sender_traits.t) (m : _enum) :
  is_maximum m (sender_traits.blocking <$> Senders) ->
  max_blocking_kind Senders = Some m.
Proof.
  destruct Senders as [|First Rest]; cbn.
  - intros [Hin _]. by apply elem_of_nil in Hin.
  - intros Hm. f_equal. eapply is_maximum_unique; [|exact Hm].
    apply max_element_spec.
Qed.

(** When [maybe] is the least value of the enumeration, the cap
    [min(_, maybe)] is [maybe] and the classification is the predecessor's. *)
Remark blocking_when_maybe_is_least (maybe : _enum)
    (Predecessor : sender_traits.t) (Factory : SuccessorFactory) :
  (forall x : _enum, (maybe <= x)%N) ->
  sender_traits.value_types Predecessor <> [] ->
  _sender.blocking maybe Predecessor Factory =
    Some (sender_traits.blocking Predecessor).
Proof.
  intros Hleast Hne. unfold _sender.blocking, _sender.successor_types,
    sender_value_types_t.
  destruct (sender_traits.value_types Predecessor) as [|Values rest]; [done|].
  cbn. rewrite std_max_spec, std_min_spec. f_equal.
  pose proof (Hleast (sender_traits.blocking Predecessor)).
  pose proof (Hleast (max_element
    (sender_traits.blocking (successor_type Factory Values))
    (sender_traits.blocking <$> (successor_type Factory <$> rest)))).
  lia.
Qed.

Lemma error_types_elem (Predecessor : sender_traits.t)
    (Factory : SuccessorFactory) (x : ty) :
  x ∈ _sender.error_types Predecessor Factory type_list <->
  x = exception_ptr \/
  exists Values,
    Values ∈ sender_traits.value_types Predecessor /\
    x ∈ sender_traits.error_types (successor_type Factory Values).
Proof.
  unfold _sender.error_types, _sender.successor_types, _sender.error_types_impl,
    sender_value_types_t, sender_error_types_t, type_list.
  rewrite elem_of_concat_type_lists_unique. split.
  - intros (l & Hx & Hl). apply elem_of_app in Hl as [Hl|Hl].
    + apply list_elem_of_fmap in Hl as (S & -> & HS).
      apply list_elem_of_fmap in HS as (Values & -> & HV).
      right. by exists Values.
    + apply list_elem_of_singleton in Hl as ->.
      apply list_elem_of_singleton in Hx. by left.
  - intros [->|(Values & HV & Hx)].
    + exists [exception_ptr]. split; [apply list_elem_of_here|].
      apply elem_of_app. right. apply list_elem_of_here.
    + exists (sender_traits.error_types (successor_type Factory Values)).
      split; [done|]. apply elem_of_app. left.
      apply list_elem_of_fmap. eexists. split; [done|].
      by apply list_elem_of_fmap_2.
Qed.

Lemma nothrow_sender_never_errs (r : receiver) (w0 w : world) :
  _sender.tag_invoke_connect nothrow_sender r = inr w0 ->
  reaches (typed nothrow_predecessor_traits) w0 w ->
  Forall (fun entry => is_error_notification entry.1 = false) (log w).
Proof.
  intros Hc Hreach.
  apply good_construct in Hc as (p & _ & Hw0 & Hgood0).
  induction Hreach as [|st w w' Hprev IH [Hal Hconf] Hrun].
  - subst w0. constructor.
  - pose proof (good_reaches _ _ _ _ _ Hgood0
                  (reaches_typed_protocol _ _ _ Hprev))
      as ([Hf Hr] & _ & _ & _ & Hph).
    apply allowed_phase in Hal. destruct st as [|s|s]; rewrite Hal in Hph.
    + subst w. revert Hrun. unfold initial. exec. intros [= <-].
      by repeat constructor.
    + subst w. revert Hrun. destruct s as [Values values| |e]; cbn in Hconf.
      * destruct Hconf as [->%list_elem_of_singleton Hlen].
        destruct values; [|done].
        unfold initial. exec. intros [= <-]. by repeat constructor.
      * done.
      * by apply elem_of_nil in Hconf.
    + destruct Hph as (Values & o & Hcl & Hs). revert Hrun.
      rewrite Hs, Hf in Hconf. destruct w as [o0 l]. cbn [op log] in *.
      destruct s as [SV values| |e]; cbn in Hconf.
      * exec. rewrite Hs. exec. rewrite ?Hcl. exec. intros [= <-].
        by constructor.
      * done.
      * by apply elem_of_nil in Hconf.
Qed.

(** ** The completion-signature calculus: claims *)

(** C7. The declared success-value shapes of a [let_value] sender are, each
    listed once, exactly the shapes of the successors: a shape is declared
    iff it is a success-value shape of the sender type the factory returns
    when it is called with lvalues of the decayed types of some
    success-value shape [Values...] of the predecessor. Shapes of the
    predecessor enter in no other way. *)
Theorem value_types_are_successor_value_types
    (Predecessor : sender_traits.t) (Factory : SuccessorFactory)
    {T} `{EqDecision T} (Tuple : shape -> T) :
  (forall V (Variant : list T -> V),
     _sender.value_types Predecessor Factory Variant Tuple =
     Variant (_sender.value_types Predecessor Factory type_list Tuple)) /\
  NoDup (_sender.value_types Predecessor Factory type_list Tuple) /\
  forall x,
    x ∈ _sender.value_types Predecessor Factory type_list Tuple <->
    exists Values SuccessorValues,
      Values ∈ sender_traits.value_types Predecessor /\
      SuccessorValues ∈
        sender_traits.value_types
          (invoke_result_t Factory (decay_t <$> Values)) /\
      x = Tuple SuccessorValues.
Proof.
  unfold _sender.value_types, _sender.successor_types, _sender.value_types_impl,
    sender_value_types_t, type_list.
  split; [done|]. split; [apply NoDup_remove_dups|].
  intros x. rewrite elem_of_concat_type_lists_unique. split.
  - intros (l & Hx & Hl).
    apply list_elem_of_fmap in Hl as (S & -> & HS).
    apply list_elem_of_fmap in HS as (Values & -> & HV).
    apply list_elem_of_fmap in Hx as (SV & -> & HSV).
    exists Values, SV. split; [done|]. split; [|done]. exact HSV.
  - intros (Values & SV & HV & HSV & ->).
    exists (Tuple <$> sender_traits.value_types (successor_type Factory Values)).
    split; [apply list_elem_of_fmap_2; exact HSV|].
    apply list_elem_of_fmap. eexists. split; [done|].
    by apply list_elem_of_fmap_2.
Qed.

(** C8, where the code departs from it. The static classification is
    [max(Predecessor's classification, min(m, maybe))], with [m] the
    greatest classification among the sender types the factory returns for
    the predecessor's success-value shapes. The runtime query has no answer
    for any sender: its body calls the static member [blocking] with
    [sender.pred_] as an argument. At [blocking_example_sender], with
    [maybe = 2], the static classification is 2 and the formula of the claim
    gives 3 for the runtime query. *)
Theorem runtime_blocking_query_has_no_answer :
  (forall maybe s, _sender.tag_invoke_blocking maybe s = None) /\
  (forall maybe Predecessor Factory m,
     is_maximum m
       (sender_traits.blocking <$>
          ((fun Values => invoke_result_t Factory (decay_t <$> Values)) <$>
             sender_traits.value_types Predecessor)) ->
     _sender.blocking maybe Predecessor Factory =
       Some (N.max (sender_traits.blocking Predecessor) (N.min m maybe))) /\
  _sender.blocking 2%N (traits (_sender.pred_ blocking_example_sender))
                   (_sender.func_ blocking_example_sender) = Some 2%N /\
  N.max (runtime_blocking (_sender.pred_ blocking_example_sender))
        (N.min 3%N 2%N) = 3%N /\
  _sender.tag_invoke_blocking 2%N blocking_example_sender = None.
Proof.
  split; [|split; [|by repeat split]].
  - intros maybe s. unfold _sender.tag_invoke_blocking, blocking_kind_call.
    done.
  - intros maybe Predecessor Factory m Hm.
    unfold _sender.blocking, _sender.successor_types, sender_value_types_t.
    rewrite (max_blocking_kind_spec _ m).
    + cbn. by rewrite std_max_spec, std_min_spec.
    + exact Hm.
Qed.

(** C6, where the code departs from it. The predecessor declares the error
    type [std::error_code]; the declared error types of the [let_value]
    sender are [std::exception_ptr] alone; yet an operation connected from
    that sender delivers the predecessor's [std::error_code] error to the
    final receiver. In general an error type is declared iff it is
    [std::exception_ptr] or an error type of some successor type. *)
Theorem predecessor_error_types_are_not_declared :
  (forall Predecessor Factory x,
     x ∈ _sender.error_types Predecessor Factory type_list <->
     x = exception_ptr \/
     exists Values,
       Values ∈ sender_traits.value_types Predecessor /\
       x ∈ sender_traits.error_types (successor_type Factory Values)) /\
  Named "std::error_code" ∈
    sender_traits.error_types (traits (_sender.pred_ example_sender)) /\
  _sender.error_types (traits (_sender.pred_ example_sender))
                      (_sender.func_ example_sender) type_list
    = [exception_ptr] /\
  can_produce example_sender (mk_error (Named "std::error_code") "timed out").
Proof.
  split; [apply error_types_elem|].
  split; [apply list_elem_of_here|]. split; [reflexivity|].
  exists "receiver", example_constructed.
  exists (after (pred_completes
                   (error_signal (mk_error (Named "std::error_code")
                                           "timed out")))
                example_started).
  eexists. split; [reflexivity|]. split.
  - eapply (reaches_step _ _
              (pred_completes
                 (error_signal (mk_error (Named "std::error_code")
                                         "timed out")))
              example_started).
    + eapply (reaches_step _ _ op_start example_constructed);
        [constructor|by split|reflexivity].
    + split; [reflexivity|]. apply list_elem_of_here.
    + reflexivity.
  - apply list_elem_of_here.
Qed.

(** C10. [std::exception_ptr] is a declared error type of every [let_value]
    sender. For the sender [nothrow_sender] — no values to copy, a noexcept
    factory, a successor whose connect is noexcept, no error types in
    predecessor or successor — the declared error types are
    [std::exception_ptr] alone, while no operation connected from it ever
    delivers an error: the declared set strictly contains what can be
    produced. *)
Theorem exception_ptr_is_always_declared :
  (forall Predecessor Factory,
     exception_ptr ∈ _sender.error_types Predecessor Factory type_list) /\
  (forall Ts,
     is_nothrow_invocable (_sender.func_ nothrow_sender) Ts = true /\
     sender_traits.is_nothrow_connectable
       (invoke_result_t (_sender.func_ nothrow_sender) Ts) = true) /\
  sender_traits.value_types (traits (_sender.pred_ nothrow_sender)) = [[]] /\
  _sender.error_types (traits (_sender.pred_ nothrow_sender))
                      (_sender.func_ nothrow_sender) type_list
    = [exception_ptr] /\
  (forall e, ~ can_produce nothrow_sender e).
Proof.
  split; [intros; apply error_types_elem; by left|].
  split; [done|]. split; [done|]. split; [reflexivity|].
  intros e (r & w0 & w & o & Hc & Hreach & Hin).
  pose proof (nothrow_sender_never_errs r w0 w Hc Hreach) as Hall.
  rewrite Forall_forall in Hall. by apply Hall in Hin.
Qed.

(** ** The life cycle of an operation state *)

Lemma received_cons o o' o'' c l :
  received (mk_world o ((c, o') :: l)) =
  received (mk_world o'' l) ++
    match c with receiver_set r s => [(r, s)] | _ => [] end.
Proof.
  unfold received. rewrite (trace_cons o o' c l), omap_app.
  f_equal. by destruct c.
Qed.

Lemma factory_calls_cons o o' o'' c l :
  factory_calls (mk_world o ((c, o') :: l)) =
  factory_calls (mk_world o'' l) ++
    match c with call_factory t => [t] | _ => [] end.
Proof.
  unfold factory_calls. rewrite (trace_cons o o' c l), omap_app.
  f_equal. by destruct c.
Qed.

Lemma started_successors_cons o o' o'' c l :
  started_successors (mk_world o ((c, o') :: l)) =
  started_successors (mk_world o'' l) ++
    match c with start_successor s => [s] | _ => [] end.
Proof.
  unfold started_successors. rewrite (trace_cons o o' c l), omap_app.
  f_equal. by destruct c.
Qed.

Lemma destructions_cons o o' o'' c l :
  destructions (mk_world o ((c, o') :: l)) =
  destructions (mk_world o'' l) ++ (if is_destruction c then [c] else []).
Proof.
  unfold destructions. rewrite (trace_cons o o' c l), omap_app.
  f_equal. cbn. by destruct (is_destruction c).
Qed.

Ltac check_lifecycle :=
  split; [|split; [|split; [|split]]];
  [ check_good
  | cbn; eauto
  | repeat constructor
  | reflexivity
  | repeat split; cbn; lia ].

Lemma lifecycle_construct pred func r w0 :
  construct pred func r = inr w0 ->
  exists p, connect pred = inr p /\ w0 = mk_world (initial func r p) [] /\
            lifecycle func r p w0.
Proof.
  unfold construct. destruct (connect pred) as [e|p]; [discriminate|].
  intros [= <-]. exists p. split; [done|]. split; [done|]. check_lifecycle.
Qed.

Lemma lifecycle_step func r p st w w' :
  lifecycle func r p w -> allowed st w = true -> handle st w = Normal tt w' ->
  lifecycle func r p w'.
Proof.
  intros (Hgood & Hnot & Hsnap & Hst & Hacc) Hal Hrun.
  pose proof (good_step _ _ _ _ _ _ Hgood Hal Hrun) as Hgood'.
  split; [done|]. clear Hgood'.
  destruct Hgood as ([Hf Hr] & Hsel & _ & _ & Hph).
  apply allowed_phase in Hal.
  unfold notified in Hnot.
  destruct st as [|s|s]; rewrite Hal in Hph, Hnot.
  - subst w. revert Hrun. unfold initial. exec. intros [= <-].
    split; [|split; [|split]]; [done|by repeat constructor|done|].
    repeat split; cbn; lia.
  - subst w. revert Hrun. unfold initial. destruct s as [Values values| |e].
    + exec. destruct (decay_copy values) as [e|copies] eqn:Ecopy.
      * exec. intros [= <-].
        split; [|split; [|split]]; [by eexists|by repeat constructor|done|].
        repeat split; cbn; lia.
      * apply decay_copy_inr in Ecopy as ->. exec.
        destruct (sender_traits.is_nothrow_connectable _) eqn:Hc,
                 (is_nothrow_invocable _ _) eqn:Hi; exec;
        (destruct (invoke func _) as [e|s] eqn:Hinv; exec;
         [| destruct (connect s) as [e|o] eqn:Hcon; exec]);
        try discriminate; intros [= <-];
        (split; [|split; [|split]];
          [first [done|by eexists]|by repeat constructor|done|
           repeat split; cbn; lia]).
    + exec. intros [= <-].
      split; [|split; [|split]]; [by eexists|by repeat constructor|done|].
      repeat split; cbn; lia.
    + exec. intros [= <-].
      split; [|split; [|split]]; [by eexists|by repeat constructor|done|].
      repeat split; cbn; lia.
  - destruct Hph as (Values & o & Hc & Hs). revert Hrun.
    destruct w as [o0 l]. cbn [op log] in *.
    assert (Hstep : forall sg,
      w' = mk_world o0 ((receiver_set (receiver_ o0) sg, o0) :: l) ->
      notified r w' /\
      Forall (fun entry : callee * operation =>
            storage_ok entry.2 = true /\
            receiver_ entry.2 = r /\ func_ entry.2 = func) (log w') /\
      storage_ok (op w') = true /\ accounted p w').
    { intros sg ->. split; [|split; [|split]].
      - unfold notified, phase_of. cbn [log]. exists sg.
        by rewrite (received_cons _ _ o0), Hnot, Hr.
      - by constructor.
      - done.
      - destruct Hacc as (H1 & H2 & H3). unfold accounted.
        rewrite (destructions_cons _ _ o0), (started_successors_cons _ _ o0),
          (factory_calls_cons _ _ o0). cbn [is_destruction].
        by rewrite !app_nil_r. }
    destruct s as [SV values| |e]; exec; rewrite Hs; exec; rewrite ?Hc; exec;
      intros [= <-]; by eapply Hstep.
Qed.

Lemma lifecycle_reaches func r p w0 w :
  lifecycle func r p w0 -> reaches protocol w0 w -> lifecycle func r p w.
Proof.
  intros H0 Hreach. induction Hreach as [|st w w' _ IH Hal Hrun]; [done|].
  by eapply lifecycle_step.
Qed.

Lemma live_members_are_destructions o :
  omap (fun c => if is_destruction c then Some c else None) (live_members o)
  = live_members o.
Proof.
  unfold live_members.
  by destruct (predOp_ o), (succOp_ o) as [[]|], (values_ o).
Qed.

Lemma live_members_start_no_successor o :
  omap (fun c => match c with start_successor s => Some s | _ => None end)
       (live_members o) = [].
Proof.
  unfold live_members.
  by destruct (predOp_ o), (succOp_ o) as [[]|], (values_ o).
Qed.

Lemma live_members_call_no_factory o :
  omap (fun c => match c with call_factory t => Some t | _ => None end)
       (live_members o) = [].
Proof.
  unfold live_members.
  by destruct (predOp_ o), (succOp_ o) as [[]|], (values_ o).
Qed.

(** X1. In a protocol-conforming run no handler fails the assertion on
    [cleanup_], calls the null selector, destroys or uses a member that is
    not alive, or constructs the value tuple over a live one, and no
    exception leaves a handler. Apart from a successor that completes with
    values (whose forwarding ends in the final receiver's [set_value]),
    every handler returns, unless the program is terminated because a
    factory call or a connect that is declared noexcept threw inside
    [set_value]. *)
Theorem handlers_return_or_terminate (w : world) (st : stimulus) :
  reachable w -> allowed st w = true ->
  (forall c, handle st w = Crashed c -> c = std_terminate) /\
  (forall e w', handle st w <> Raised e w') /\
  ((forall SuccessorValues values,
      st <> succ_completes (value_signal SuccessorValues values)) ->
   (exists w', handle st w = Normal tt w') \/
   (handle st w = Crashed std_terminate /\
    exists Values values,
      st = pred_completes (value_signal Values values) /\
      decay_copy values = inr values /\
      noexcept_violation (func_ (op w)) Values values)).
Proof.
  intros (func & r & p & [Hf Hr] & Hsel & _ & _ & Hph)%reachable_good Hal.
  apply allowed_phase in Hal.
  assert (Hcases :
    (exists w', handle st w = Normal tt w') \/
    (handle st w = Crashed std_terminate /\
     exists Values values,
       st = pred_completes (value_signal Values values) /\
       decay_copy values = inr values /\
       noexcept_violation (func_ (op w)) Values values)).
  { destruct st as [|s|s]; rewrite Hal in Hph.
    - subst w. left. unfold initial. exec. by eexists.
    - subst w. unfold initial, noexcept_violation.
      destruct s as [Values values| |e]; [|left; exec; by eexists..].
      exec. destruct (decay_copy values) as [e|copies] eqn:Ecopy.
      + left. exec. by eexists.
      + pose proof (decay_copy_inr _ _ Ecopy) as ->. exec.
        destruct (sender_traits.is_nothrow_connectable _) eqn:Hc,
                 (is_nothrow_invocable _ _) eqn:Hi; exec;
        (destruct (invoke func _) as [e|s] eqn:Hinv; exec;
         [| destruct (connect s) as [e|o] eqn:Hcon; exec]);
        first [ left; by eexists
              | right; split; [done|]; exists Values, values;
                split; [done|]; split; [exact Ecopy|];
                first [ left; split; [exact Hi|]; by exists e
                      | right; exists s, e; by repeat split ] ].
    - destruct Hph as (Values & o & Hc & Hs). left.
      destruct w as [o0 l]. cbn [op log] in *.
      destruct s as [SV values| |e]; exec; rewrite Hs; exec; rewrite ?Hc; exec;
        by eexists. }
  split; [|split; [|done]].
  - intros c Hc. destruct Hcases as [[w' Hw]|[Hw _]]; congruence.
  - intros e w' He. destruct Hcases as [[w'' Hw]|[Hw _]]; congruence.
Qed.

Lemma handlers_return_or_terminate_witness :
  let st := pred_completes (value_signal [int] [forty_two]) in
  reachable example_started /\ allowed st example_started = true /\
  (forall c, handle st example_started = Crashed c -> c = std_terminate) /\
  (forall e w', handle st example_started <> Raised e w') /\
  ((forall SuccessorValues values,
      st <> succ_completes (value_signal SuccessorValues values)) ->
   (exists w', handle st example_started = Normal tt w') \/
   (handle st example_started = Crashed std_terminate /\
    exists Values values,
      st = pred_completes (value_signal Values values) /\
      decay_copy values = inr values /\
      noexcept_violation (func_ (op example_started)) Values values)).
Proof.
  intros st.
  assert (H1 : reachable example_started) by apply example_started_reachable.
  assert (H2 : allowed st example_started = true) by reflexivity.
  split; [exact H1|]. split; [exact H2|].
  exact (handlers_return_or_terminate example_started st H1 H2).
Defined.

Lemma example_run_protocol :
  reaches protocol example_constructed example_completed.
Proof.
  eapply (reaches_step _ _
            (succ_completes (value_signal [int] [mk_value 43%N None]))
            example_succ_running); [|done|done].
  eapply (reaches_step _ _
            (pred_completes (value_signal [RRef int] [forty_two]))
            example_started); [|done|done].
  eapply (reaches_step _ _ op_start example_constructed); [|done|done].
  constructor.
Qed.

(** X2. The final receiver is notified at most once, and exactly when the
    operation has completed; the notification goes to the receiver that was
    given to connect. *)
Theorem final_receiver_is_notified_once pred func r w0 w :
  construct pred func r = inr w0 -> reaches protocol w0 w ->
  (phase_of w = Completed /\ exists s, received w = [(r, s)]) \/
  (phase_of w <> Completed /\ received w = []).
Proof.
  intros (p & _ & _ & H0)%lifecycle_construct Hreach.
  destruct (lifecycle_reaches _ _ _ _ _ H0 Hreach) as (_ & Hnot & _).
  unfold notified in Hnot. destruct (phase_of w); [right..|left]; done.
Qed.

Lemma final_receiver_is_notified_once_witness :
  construct example_predecessor example_factory "receiver"
    = inr example_constructed /\
  reaches protocol example_constructed example_completed /\
  ((phase_of example_completed = Completed /\
    exists s, received example_completed = [("receiver", s)]) \/
   (phase_of example_completed <> Completed /\
    received example_completed = [])).
Proof.
  assert (H1 : construct example_predecessor example_factory "receiver"
               = inr example_constructed) by reflexivity.
  split; [exact H1|]. split; [exact example_run_protocol|].
  exact (final_receiver_is_notified_once
           example_predecessor example_factory "receiver"
           example_constructed example_completed H1 example_run_protocol).
Defined.

(** X4. Over the whole life of an operation, teardown included, what is
    destroyed is what was created, each once: the predecessor operation
    first, then the successor operation if one was started, then the value
    tuple if the factory was called with one; at most one successor and one
    tuple exist, and after the destructor nothing is alive. *)
Theorem everything_created_is_destroyed_once pred func r w0 w :
  construct pred func r = inr w0 -> reaches protocol w0 w ->
  exists p w',
    connect pred = inr p /\
    destructor w = Normal tt w' /\
    destructions w' =
      destroy_predOp p ::
        (destroy_succOp <$> started_successors w') ++
        (destroy_values <$> factory_calls w') /\
    length (started_successors w') <= 1 /\
    length (factory_calls w') <= 1 /\
    live_members (op w') = [].
Proof.
  intros (p & Hp & _ & H0)%lifecycle_construct Hreach.
  destruct (lifecycle_reaches _ _ _ _ _ H0 Hreach)
    as (Hgood & _ & _ & _ & Hacc & Hlen1 & Hlen2).
  destruct Hgood as (_ & Hsel & _).
  destruct w as [o l]. cbn [op] in *.
  destruct (destructor_correct o l Hsel) as (w' & Hd & Htr & Hlive).
  exists p, w'. split; [done|]. split; [done|].
  assert (Hs : started_successors w' = started_successors (mk_world o l)).
  { unfold started_successors. rewrite Htr, omap_app.
    by rewrite live_members_start_no_successor, app_nil_r. }
  assert (Hf : factory_calls w' = factory_calls (mk_world o l)).
  { unfold factory_calls. rewrite Htr, omap_app.
    by rewrite live_members_call_no_factory, app_nil_r. }
  rewrite Hs, Hf. repeat (split; [|done]). rewrite <- Hacc.
  unfold destructions at 1. rewrite Htr, omap_app.
  by rewrite live_members_are_destructions.
Qed.

Lemma everything_created_is_destroyed_once_witness :
  construct example_predecessor example_factory "receiver"
    = inr example_constructed /\
  reaches protocol example_constructed example_completed /\
  exists p w',
    connect example_predecessor = inr p /\
    destructor example_completed = Normal tt w' /\
    destructions w' =
      destroy_predOp p ::
        (destroy_succOp <$> started_successors w') ++
        (destroy_values <$> factory_calls w') /\
    length (started_successors w') <= 1 /\
    length (factory_calls w') <= 1 /\
    live_members (op w') = [].
Proof.
  assert (H1 : construct example_predecessor example_factory "receiver"
               = inr example_constructed) by reflexivity.
  split; [exact H1|]. split; [exact example_run_protocol|].
  exact (everything_created_is_destroyed_once
           example_predecessor example_factory "receiver"
           example_constructed example_completed H1 example_run_protocol).
Defined.

(** X5. A completion of the predecessor that arrives after the predecessor
    operation has been destroyed. In the default build the assertion on
    [cleanup_] at the head of [set_value], [set_done] and [set_error] fails
    before anything is notified or modified. With
    UNIFEX_DISABLE_LET_VALUE_CLEANUP_ASSERTS defined nothing stops a late
    [set_done] or [set_error]: it is forwarded to the final receiver. *)
Theorem late_predecessor_completion (w : world) :
  reachable w -> predOp_ (op w) = None ->
  (forall s, handle (pred_completes s) w = Crashed assert_failed) /\
  (set_done_when false = predecessor_receiver.set_done /\
   forall e, set_error_when false e = predecessor_receiver.set_error e) /\
  set_done_when true w =
    Normal tt (mk_world (op w)
                 ((receiver_set (receiver_ (op w)) done_signal, op w)
                    :: log w)) /\
  forall e,
    set_error_when true e w =
      Normal tt (mk_world (op w)
                   ((receiver_set (receiver_ (op w)) (error_signal e), op w)
                      :: log w)).
Proof.
  intros (func & r & p & _ & Hsel & _)%reachable_good Hpred.
  assert (Hne : cleanup_ (op w) <> Some deactivatePredOp).
  { intros Hc. unfold selector_matches in Hsel. rewrite Hc in Hsel.
    apply bool_decide_eq_true in Hsel as [[p' Hp'] _]. congruence. }
  split; [|split; [by split|split]].
  - intros s. destruct s as [Values values| |e]; exec; done.
  - unfold set_done_when, UNIFEX_ASSERT_CLEANUP_when. by exec.
  - intros e. unfold set_error_when, UNIFEX_ASSERT_CLEANUP_when. by exec.
Qed.

Lemma late_predecessor_completion_witness :
  reachable example_succ_running /\
  predOp_ (op example_succ_running) = None /\
  (forall s,
     handle (pred_completes s) example_succ_running = Crashed assert_failed) /\
  (set_done_when false = predecessor_receiver.set_done /\
   forall e, set_error_when false e = predecessor_receiver.set_error e) /\
  set_done_when true example_succ_running =
    Normal tt (mk_world (op example_succ_running)
                 ((receiver_set (receiver_ (op example_succ_running))
                                done_signal, op example_succ_running)
                    :: log example_succ_running)) /\
  forall e,
    set_error_when true e example_succ_running =
      Normal tt (mk_world (op example_succ_running)
                   ((receiver_set (receiver_ (op example_succ_running))
                                  (error_signal e), op example_succ_running)
                      :: log example_succ_running)).
Proof.
  assert (H1 : reachable example_succ_running)
    by apply example_succ_running_reachable.
  assert (H2 : predOp_ (op example_succ_running) = None) by reflexivity.
  split; [exact H1|]. split; [exact H2|].
  exact (late_predecessor_completion example_succ_running H1 H2).
Defined.

(** X6. A receiver query, and a visit of continuations, made through either
    internal receiver is answered by the final receiver that was given to
    connect: at any time in the life of the operation, and at every call
    the operation made into foreign code. *)
Theorem receiver_queries_reach_the_final_receiver
    {A} (cpo : receiver -> A) pred func r w0 w :
  construct pred func r = inr w0 -> reaches protocol w0 w ->
  (tag_invoke_query cpo (op w) = cpo r /\
   tag_invoke_visit_continuations cpo (op w) = cpo r) /\
  forall c o, (c, o) ∈ log w ->
    tag_invoke_query cpo o = cpo r /\
    tag_invoke_visit_continuations cpo o = cpo r.
Proof.
  intros (p & _ & _ & H0)%lifecycle_construct Hreach.
  destruct (lifecycle_reaches _ _ _ _ _ H0 Hreach)
    as (([_ Hr] & _) & _ & Hlog & _).
  unfold tag_invoke_query, tag_invoke_visit_continuations, get_receiver.
  split; [by rewrite Hr|]. intros c o Hin. rewrite Forall_forall in Hlog.
  destruct (Hlog _ Hin) as (_ & Hro & _). cbn in Hro. by rewrite Hro.
Qed.

Lemma receiver_queries_reach_the_final_receiver_witness :
  construct example_predecessor example_factory "receiver"
    = inr example_constructed /\
  reaches protocol example_constructed example_completed /\
  (tag_invoke_query String.length (op example_completed)
     = String.length "receiver" /\
   tag_invoke_visit_continuations String.length (op example_completed)
     = String.length "receiver") /\
  forall c o, (c, o) ∈ log example_completed ->
    tag_invoke_query String.length o = String.length "receiver" /\
    tag_invoke_visit_continuations String.length o
      = String.length "receiver".
Proof.
  assert (H1 : construct example_predecessor example_factory "receiver"
               = inr example_constructed) by reflexivity.
  split; [exact H1|]. split; [exact example_run_protocol|].
  exact (receiver_queries_reach_the_final_receiver String.length
           example_predecessor example_factory "receiver"
           example_constructed example_completed H1 example_run_protocol).
Defined.

(** ** The announced completion signals against the runs *)

Lemma value_types_elem (Predecessor : sender_traits.t)
    (Factory : SuccessorFactory) (SuccessorValues : shape) :
  SuccessorValues ∈ _sender.value_types Predecessor Factory type_list id <->
  exists Values,
    Values ∈ sender_traits.value_types Predecessor /\
    SuccessorValues ∈
      sender_traits.value_types (successor_type Factory Values).
Proof.
  unfold _sender.value_types, _sender.successor_types, _sender.value_types_impl,
    sender_value_types_t, type_list.
  rewrite elem_of_concat_type_lists_unique. split.
  - intros (l & Hx & Hl).
    apply list_elem_of_fmap in Hl as (S & -> & HS).
    apply list_elem_of_fmap in HS as (Values & -> & HV).
    rewrite list_fmap_id in Hx. by exists Values.
  - intros (Values & HV & HSV).
    exists (id <$> sender_traits.value_types (successor_type Factory Values)).
    split; [by rewrite list_fmap_id|].
    apply list_elem_of_fmap. eexists. split; [done|].
    by apply list_elem_of_fmap_2.
Qed.

Lemma sends_done_elem (Predecessor : sender_traits.t)
    (Factory : SuccessorFactory) :
  _sender.sends_done Predecessor Factory = true <->
  sender_traits.sends_done Predecessor = true \/
  exists Values,
    Values ∈ sender_traits.value_types Predecessor /\
    sender_traits.sends_done (successor_type Factory Values) = true.
Proof.
  unfold _sender.sends_done, _sender.successor_types, sender_value_types_t,
    any_sends_done.
  rewrite orb_true_iff, existsb_exists. split.
  - intros [H|(S & HS & Hd)]; [by left|right].
    apply list_elem_of_In, list_elem_of_fmap in HS as (Values & -> & HV).
    by exists Values.
  - intros [H|(Values & HV & Hd)]; [by left|right].
    exists (successor_type Factory Values). split; [|done].
    by apply list_elem_of_In, list_elem_of_fmap_2.
Qed.

Lemma typed_run_announced (Predecessor : sender_traits.t) pred func r w0 w :
  construct pred func r = inr w0 ->
  reaches (typed Predecessor) w0 w ->
  Forall (fun rs : receiver * signal =>
            rs.1 = r /\ announced Predecessor func rs.2) (received w) /\
  (phase_of w = SuccRunning ->
   exists Values s,
     succOp_ (op w) = Some (Values, s) /\
     Values ∈ sender_traits.value_types Predecessor).
Proof.
  intros Hc Hreach.
  apply good_construct in Hc as (p & _ & Hw0 & Hgood0).
  induction Hreach as [|st w w' Hprev [IHrec IHsucc] [Hal Hconf] Hrun].
  - subst w0. split; [constructor|done].
  - pose proof (good_reaches _ _ _ _ _ Hgood0
                  (reaches_typed_protocol _ _ _ Hprev))
      as ([Hf Hr] & _ & _ & _ & Hph).
    apply allowed_phase in Hal. destruct st as [|s|s]; rewrite Hal in Hph.
    + subst w. revert Hrun. unfold initial. exec. intros [= <-].
      split; [constructor|done].
    + subst w. revert Hrun. unfold initial.
      destruct s as [Values values| |e]; cbn in Hconf.
      * destruct Hconf as [HV _].
        assert (Hexn : forall e,
          announced Predecessor func (error_signal (current_exception e))).
        { intros e. left. apply error_types_elem. by left. }
        exec. destruct (decay_copy values) as [e|copies] eqn:Ecopy.
        -- exec. intros [= <-]. split; [|done].
           cbn. constructor; [|constructor]. split; [done|apply Hexn].
        -- apply decay_copy_inr in Ecopy as ->. exec.
           destruct (sender_traits.is_nothrow_connectable _),
                    (is_nothrow_invocable _ _); exec;
           (destruct (invoke func _) as [e|s]; exec;
            [| destruct (connect s) as [e|o]; exec]);
           try discriminate; intros [= <-];
           (split;
             [ cbn;
               first [ by constructor
                     | constructor; [|constructor];
                       split; [done|apply Hexn] ]
             | first [done|by eauto] ]).
      * exec. intros [= <-]. split; [|done].
        cbn. constructor; [|constructor]. split; [done|].
        apply sends_done_elem. by left.
      * exec. intros [= <-]. split; [|done].
        cbn. constructor; [|constructor]. split; [done|]. by right.
    + destruct Hph as (Values & o & Hcl & Hs).
      destruct (IHsucc Hal) as (Values' & o' & Hs' & HV).
      rewrite Hs in Hs'. injection Hs' as <- <-.
      rewrite Hs, Hf in Hconf. revert Hrun.
      destruct w as [o0 l]. cbn [op log] in *.
      assert (Hstep : forall sg,
        conforms (successor_type func Values) sg ->
        w' = mk_world o0 ((receiver_set (receiver_ o0) sg, o0) :: l) ->
        Forall (fun rs : receiver * signal =>
                  rs.1 = r /\ announced Predecessor func rs.2) (received w') /\
        (phase_of w' = SuccRunning ->
         exists Values s,
           succOp_ (op w') = Some (Values, s) /\
           Values ∈ sender_traits.value_types Predecessor)).
      { intros sg Hsg ->. split; [|done].
        rewrite (received_cons _ _ o0). apply Forall_app. split; [done|].
        constructor; [|constructor]. split; [done|]. cbn.
        destruct sg as [SV values| |e]; cbn in Hsg.
        - apply value_types_elem. exists Values. by destruct Hsg.
        - apply sends_done_elem. right. by exists Values.
        - left. apply error_types_elem. right. by exists Values. }
      destruct s as [SV values| |e]; exec; rewrite Hs; exec; rewrite ?Hcl;
        exec; intros [= <-]; by eapply Hstep.
Qed.

(** X7. When predecessor and successors keep to their own traits, every
    notification of the final receiver goes to the receiver given to
    connect and is announced by the traits of the [let_value] sender: a
    value signal has a declared value shape, cancellation arrives only if
    [sends_done] is true, and an error has a declared error type or an error
    type of the predecessor. *)
Theorem notifications_are_announced (s : _sender.type) r w0 w :
  _sender.tag_invoke_connect s r = inr w0 ->
  reaches (typed (traits (_sender.pred_ s))) w0 w ->
  forall r' sg, (r', sg) ∈ received w ->
    r' = r /\ announced (traits (_sender.pred_ s)) (_sender.func_ s) sg.
Proof.
  intros Hc Hreach r' sg Hin.
  destruct (typed_run_announced _ _ _ _ _ _ Hc Hreach) as [Hall _].
  rewrite Forall_forall in Hall. exact (Hall _ Hin).
Qed.

Lemma declared_run_typed :
  reaches (typed (traits (_sender.pred_ example_sender)))
          example_constructed declared_completed.
Proof.
  eapply (reaches_step _ _
            (succ_completes (value_signal [int] [mk_value 43%N None]))
            declared_succ_running).
  - eapply (reaches_step _ _
              (pred_completes (value_signal [int] [forty_two]))
              example_started).
    + eapply (reaches_step _ _ op_start example_constructed);
        [constructor|by split|reflexivity].
    + split; [reflexivity|]. split; [apply list_elem_of_here|reflexivity].
    + reflexivity.
  - split; [reflexivity|]. split; [apply list_elem_of_here|reflexivity].
  - reflexivity.
Qed.

Lemma notifications_are_announced_witness :
  _sender.tag_invoke_connect example_sender "receiver"
    = inr example_constructed /\
  reaches (typed (traits (_sender.pred_ example_sender)))
          example_constructed declared_completed /\
  forall r' sg, (r', sg) ∈ received declared_completed ->
    r' = "receiver" /\
    announced (traits (_sender.pred_ example_sender))
              (_sender.func_ example_sender) sg.
Proof.
  assert (H1 : _sender.tag_invoke_connect example_sender "receiver"
               = inr example_constructed) by reflexivity.
  split; [exact H1|]. split; [exact declared_run_typed|].
  exact (notifications_are_announced example_sender "receiver"
           example_constructed declared_completed H1 declared_run_typed).
Defined.

(** ** The handoff *)





(** ** Cancellation, scheduler affinity and blocking of the sender *)

(** X9. [sends_done] is true iff the predecessor or some successor type can
    complete with cancellation; [is_always_scheduler_affine] is true iff the
    predecessor and every successor type are; for a predecessor that has no
    success-value shape both are the predecessor's own. *)
Theorem cancellation_and_affinity_of_the_sender
    (Predecessor : sender_traits.t) (Factory : SuccessorFactory) :
  (_sender.sends_done Predecessor Factory = true <->
   sender_traits.sends_done Predecessor = true \/
   exists Values,
     Values ∈ sender_traits.value_types Predecessor /\
     sender_traits.sends_done (successor_type Factory Values) = true) /\
  (_sender.is_always_scheduler_affine Predecessor Factory = true <->
   sender_traits.is_always_scheduler_affine Predecessor = true /\
   forall Values,
     Values ∈ sender_traits.value_types Predecessor ->
     sender_traits.is_always_scheduler_affine (successor_type Factory Values)
       = true) /\
  (sender_traits.value_types Predecessor = [] ->
   _sender.sends_done Predecessor Factory
     = sender_traits.sends_done Predecessor /\
   _sender.is_always_scheduler_affine Predecessor Factory
     = sender_traits.is_always_scheduler_affine Predecessor).
Proof.
  split; [apply sends_done_elem|]. split.
  - unfold _sender.is_always_scheduler_affine, _sender.successor_types,
      sender_value_types_t, all_always_scheduler_affine.
    rewrite andb_true_iff, forallb_forall. split.
    + intros [H1 H2]. split; [done|]. intros Values HV. apply H2.
      by apply list_elem_of_In, list_elem_of_fmap_2.
    + intros [H1 H2]. split; [done|]. intros S HS.
      apply list_elem_of_In, list_elem_of_fmap in HS as (Values & -> & HV).
      by apply H2.
  - intros Hnil.
    unfold _sender.sends_done, _sender.is_always_scheduler_affine,
      _sender.successor_types, sender_value_types_t. rewrite Hnil. cbn.
    by rewrite orb_false_r, andb_true_r.
Qed.

(** X10. [max_blocking_kind] answers the greatest blocking classification
    among the given sender types, and has no answer exactly for the empty
    pack. *)
Theorem max_blocking_kind_is_the_greatest
    (Senders : list sender_traits.t) (m : _enum) :
  (max_blocking_kind Senders = Some m <->
   is_maximum m (sender_traits.blocking <$> Senders)) /\
  (max_blocking_kind Senders = None <-> Senders = []).
Proof.
  split.
  - split; [|apply max_blocking_kind_spec].
    destruct Senders as [|First Rest]; [done|]. cbn. intros [= <-].
    apply max_element_spec.
  - by destruct Senders.
Qed.

(** X11. The static blocking classification exists iff the predecessor has
    a success-value shape. When it exists it is at least the predecessor's
    classification, at least [min(successor's classification, maybe)] for
    every successor type, and at most [max(predecessor's classification,
    maybe)]: successors never raise it above [maybe]. *)
Theorem blocking_is_defined_and_bounded (maybe : _enum)
    (Predecessor : sender_traits.t) (Factory : SuccessorFactory) :
  (_sender.blocking maybe Predecessor Factory = None <->
   sender_traits.value_types Predecessor = []) /\
  forall b,
    _sender.blocking maybe Predecessor Factory = Some b ->
    (sender_traits.blocking Predecessor <= b)%N /\
    (b <= N.max (sender_traits.blocking Predecessor) maybe)%N /\
    forall Values,
      Values ∈ sender_traits.value_types Predecessor ->
      (N.min (sender_traits.blocking (successor_type Factory Values)) maybe
       <= b)%N.
Proof.
  unfold _sender.blocking, _sender.successor_types, sender_value_types_t.
  split.
  - by destruct (sender_traits.value_types Predecessor).
  - intros b.
    destruct (max_blocking_kind
                (successor_type Factory <$> sender_traits.value_types Predecessor))
      as [m|] eqn:Hm; [|done].
    cbn. rewrite std_max_spec, std_min_spec. intros [= <-].
    split; [lia|]. split; [lia|]. intros Values HV.
    assert (Hmax : is_maximum m
              (sender_traits.blocking <$>
                 (successor_type Factory <$>
                    sender_traits.value_types Predecessor))).
    { destruct (successor_type Factory <$> sender_traits.value_types Predecessor)
        as [|First Rest]; [done|].
      cbn in Hm. injection Hm as <-. apply max_element_spec. }
    destruct Hmax as [_ Hle].
    assert (sender_traits.blocking (successor_type Factory Values) <= m)%N.
    { apply Hle. by do 2 apply list_elem_of_fmap_2. }
    lia.
Qed.

(** X13. While a successor runs, [cleanup_] is the [expectedCleanup] of
    the forwarding receiver it was connected to, so the assertion of that
    receiver holds; the receiver hands the successor's signal to the final
    receiver. For cancellation and for an error the handler returns; for
    values it returns when the final receiver's [set_value] does. Whenever
    it returns, the operation state is as it was: the successor operation
    and the value tuple stay alive until the destructor runs. *)
Theorem successor_completion_is_relayed (w : world) (sg : signal) :
  reachable w -> phase_of w = SuccRunning ->
  (forall w',
     handle (succ_completes sg) w = Normal tt w' ->
     op w' = op w /\
     log w' = (receiver_set (receiver_ (op w)) sg, op w) :: log w /\
     is_Some (succOp_ (op w')) /\ is_Some (values_ (op w'))) /\
  (exists Values s,
     succOp_ (op w) = Some (Values, s) /\
     cleanup_ (op w) = successor_receiver.expectedCleanup Values) /\
  (sg = done_signal \/ (exists e, sg = error_signal e) ->
   exists w', handle (succ_completes sg) w = Normal tt w').
Proof.
  intros Hreach Hphase.
  destruct (reachable_good w Hreach)
    as (func & r & p & _ & Hsel & _ & _ & Hph).
  rewrite Hphase in Hph. destruct Hph as (Values & o & Hc & Hs).
  unfold selector_matches in Hsel. rewrite Hc in Hsel.
  apply bool_decide_eq_true in Hsel as (_ & _ & Hv).
  destruct w as [o0 l]. cbn [op log] in *.
  assert (Hlive : is_Some (succOp_ o0) /\ is_Some (values_ o0)).
  { split; [by rewrite Hs|]. by destruct (values_ o0). }
  assert (Hrun : handle (succ_completes sg) (mk_world o0 l) =
                 Normal tt (mk_world o0 ((receiver_set (receiver_ o0) sg, o0)
                                           :: l))).
  { destruct sg as [SV values| |e]; exec; rewrite Hs; exec; rewrite ?Hc; exec;
      done. }
  rewrite Hrun. split; [|split].
  - intros w' [= <-]. by destruct Hlive.
  - by exists Values, o.
  - intros _. by eexists.
Qed.

Lemma successor_completion_is_relayed_witness :
  reachable example_succ_running /\
  phase_of example_succ_running = SuccRunning /\
  (forall w',
     handle (succ_completes done_signal) example_succ_running = Normal tt w' ->
     op w' = op example_succ_running /\
     log w' = (receiver_set (receiver_ (op example_succ_running)) done_signal,
               op example_succ_running) :: log example_succ_running /\
     is_Some (succOp_ (op w')) /\ is_Some (values_ (op w'))) /\
  (exists Values s,
     succOp_ (op example_succ_running) = Some (Values, s) /\
     cleanup_ (op example_succ_running)
       = successor_receiver.expectedCleanup Values) /\
  (done_signal = done_signal \/ (exists e, done_signal = error_signal e) ->
   exists w',
     handle (succ_completes done_signal) example_succ_running = Normal tt w').
Proof.
  assert (H1 : reachable example_succ_running)
    by apply example_succ_running_reachable.
  assert (H2 : phase_of example_succ_running = SuccRunning) by reflexivity.
  split; [exact H1|]. split; [exact H2|].
  exact (successor_completion_is_relayed
           example_succ_running done_signal H1 H2).
Defined.
